(** * singleware/ui-dialog: the dialog template (src/source/template.tsx)

    A shallow embedding of the [Template] class: the nodes it creates, the
    node tree it mutates through [insertBefore], [appendChild] and
    [remove], the promise it hands out from [wait], and the events it
    dispatches on its skeleton.  Fallible DOM calls return a [Result];
    the state of one dialog instance is passed explicitly. *)

From stdpp Require Import base decidable countable option list gmap fin_maps strings.

(** ** Nodes *)

(** The elements the class creates, one constructor per private field, and
    the supplied children ([this.children], appended below the skeleton). *)
Inductive Node : Type :=
  | Skeleton      (* <div class={properties.class}>{children}</div> *)
  | Elements      (* the closed shadow root of the skeleton *)
  | Styles        (* <style> *)
  | Wrapper       (* <div class="wrapper"> *)
  | ModalSlot     (* <slot name="modal" class="modal"> *)
  | Dialog        (* <div class="dialog"> *)
  | HeaderSlot    (* <slot name="header" class="header"> *)
  | ContentSlot   (* <slot name="content" class="content"> *)
  | FooterSlot    (* <slot name="footer" class="footer"> *)
  | Light (i : nat).  (* the i-th supplied child *)

#[global] Instance Node_eq_dec : EqDecision Node.
Proof. solve_decision. Defined.

Definition Node_code (n : Node) : nat :=
  match n with
  | Skeleton => 0 | Elements => 1 | Styles => 2 | Wrapper => 3
  | ModalSlot => 4 | Dialog => 5 | HeaderSlot => 6 | ContentSlot => 7
  | FooterSlot => 8 | Light i => 9 + i
  end.

Definition Node_of_code (c : nat) : Node :=
  match c with
  | 0 => Skeleton | 1 => Elements | 2 => Styles | 3 => Wrapper
  | 4 => ModalSlot | 5 => Dialog | 6 => HeaderSlot | 7 => ContentSlot
  | 8 => FooterSlot | S (S (S (S (S (S (S (S (S i)))))))) => Light i
  end.

#[global] Instance Node_countable : Countable Node :=
  inj_countable' Node_code Node_of_code
    (λ n, match n with
          | Skeleton | Elements | Styles | Wrapper | ModalSlot | Dialog
          | HeaderSlot | ContentSlot | FooterSlot | Light _ => eq_refl
          end).

(** ** The node tree *)

(** A node tree in the sense of the DOM standard: every parent with its
    ordered list of children.  A parent without an entry has none. *)
Abbreviation Tree := (gmap Node (list Node)).

Definition children (d : Tree) (p : Node) : list Node := default [] (d !! p).

(** A node is attached when some node has it as a child. *)
Definition attached (d : Tree) (n : Node) : Prop := ∃ p, n ∈ children d p.

(** [b] is immediately before [w] among the children of [p]. *)
Definition immediatelyBefore (d : Tree) (p b w : Node) : Prop :=
  ∃ l1 l2, children d p = l1 ++ b :: w :: l2.

(** ** Exceptions *)

Inductive DOMException : Type := NotFoundError | HierarchyRequestError.

Inductive Result (A : Type) : Type :=
  | Ok (a : A)
  | Throw (e : DOMException).
Arguments Ok {A} a.
Arguments Throw {A} e.

#[global] Instance Result_bind : MBind Result := λ A B k r,
  match r with
  | Ok a => k a
  | Throw e => Throw e
  end.

(** ** DOM primitives, after the DOM standard *)

(** [descends d fuel a b]: [b] is reached from [a] by going down at most
    [fuel] child links (at least one). *)
Fixpoint descends (d : Tree) (fuel : nat) (a b : Node) : bool :=
  match fuel with
  | 0 => false
  | S f => existsb (λ c, bool_decide (c = b) || descends d f c b) (children d a)
  end.

(** [a] is an inclusive ancestor of [b] within the tree.  A downward path
    without a cycle visits each parent once, so [size d] links are
    enough. *)
Definition inclusiveAncestor (d : Tree) (a b : Node) : bool :=
  bool_decide (a = b) || descends d (size d) a b.

(** [node.remove()]: takes the node out of its parent's children; nothing
    happens when it has no parent.  A node has one parent at most, so the
    node is dropped from whatever list holds it. *)
Definition remove (n : Node) (d : Tree) : Tree :=
  filter (λ c, c ≠ n) <$> d.

(** Puts [n] before the first occurrence of [ref] in [l]. *)
Fixpoint placeBefore (n ref : Node) (l : list Node) : list Node :=
  match l with
  | [] => [n]
  | c :: l' => if decide (c = ref) then n :: c :: l' else c :: placeBefore n ref l'
  end.

(** [parent.insertBefore(node, ref)]: the validity checks of the standard
    (the node must not contain the parent, the reference must be a child
    of the parent), then the node is moved, not cloned: it leaves its old
    parent first.  With [node = ref] the node stays where it is. *)
Definition insertBefore (p node ref : Node) (d : Tree) : Result Tree :=
  if inclusiveAncestor d node p then Throw HierarchyRequestError
  else if bool_decide (ref ∈ children d p) then
    if bool_decide (node = ref) then Ok d
    else let d' := remove node d in
         Ok (<[p := placeBefore node ref (children d' p)]> d')
  else Throw NotFoundError.

(** [parent.appendChild(node)]: the same hierarchy check; the node leaves
    its old parent and becomes the last child. *)
Definition appendChild (p node : Node) (d : Tree) : Result Tree :=
  if inclusiveAncestor d node p then Throw HierarchyRequestError
  else let d' := remove node d in
       Ok (<[p := children d' p ++ [node]]> d').

(** ** Promises *)

(** The state of one promise.  [Adopt p]: resolved with the promise [p],
    whose fate it follows (an async function returning a promise). *)
Inductive PromiseState : Type :=
  | Pending
  | Fulfilled (value : bool)
  | Rejected
  | Adopt (p : nat).

#[global] Instance PromiseState_eq_dec : EqDecision PromiseState.
Proof. solve_decision. Defined.

(** The two functions an executor receives ([Class.Callable]). *)
Inductive Callable : Type :=
  | ResolveOf (p : nat)
  | RejectOf (p : nat).

#[global] Instance Callable_eq_dec : EqDecision Callable.
Proof. solve_decision. Defined.

(** Settling a promise: only a pending promise changes. *)
Definition settle (p : nat) (st : PromiseState) (ps : list PromiseState) : list PromiseState :=
  match ps !! p with
  | Some Pending => <[p := st]> ps
  | _ => ps
  end.

(** Calling a resolving function with a boolean argument. *)
Definition call (f : Callable) (v : bool) (ps : list PromiseState) : list PromiseState :=
  match f with
  | ResolveOf p => settle p (Fulfilled v) ps
  | RejectOf p => settle p Rejected ps
  end.

(** What awaiting promise [q] delivers in the store [ps] once the pending
    jobs have run: adoption links are followed. *)
Fixpoint fate (fuel : nat) (ps : list PromiseState) (q : nat) : PromiseState :=
  match ps !! q with
  | Some (Adopt p) =>
      match fuel with
      | 0 => Pending
      | S f => fate f ps p
      end
  | Some st => st
  | None => Pending
  end.

(** ** Events *)

Record Event : Type := {
  type : string;
  bubbles : bool;
  cancelable : bool;
  target : option Node
}.

(** [new Event(type, { bubbles, cancelable })] *)
Definition newEvent (ty : string) (b c : bool) : Event :=
  {| type := ty; bubbles := b; cancelable := c; target := None |}.

(** One dispatched event, with what a listener called synchronously at
    that moment can see: the node tree and the promises. *)
Record Delivery : Type := {
  delivered : Event;
  seenTree : Tree;
  seenPromises : list PromiseState
}.

(** ** Properties *)

(** Modelled from the spec: the [Properties] interface (./properties is
    not among the sources); the configuration fields [modal] and
    [canIgnore] read by the template, both optional. *)
Record Properties : Type := {
  modal : option bool;
  canIgnore : option bool
}.

(** JavaScript truthiness of an optional boolean, and [a || b]. *)
Definition truthy (v : option bool) : bool :=
  match v with
  | Some true => true
  | _ => false
  end.

Definition jsOr (a b : option bool) : option bool :=
  if truthy a then a else b.

(** ** The template *)

Record Template : Type := {
  properties : Properties;
  confirmation : option Callable;
  tree : Tree;
  promises : list PromiseState;
  dispatched : list Delivery
}.

Definition setTree (d : Tree) (t : Template) : Template :=
  {| properties := properties t; confirmation := confirmation t; tree := d;
     promises := promises t; dispatched := dispatched t |}.

Definition setPromises (ps : list PromiseState) (t : Template) : Template :=
  {| properties := properties t; confirmation := confirmation t; tree := tree t;
     promises := ps; dispatched := dispatched t |}.

Definition setConfirmation (f : option Callable) (t : Template) : Template :=
  {| properties := properties t; confirmation := f; tree := tree t;
     promises := promises t; dispatched := dispatched t |}.

(** [node.dispatchEvent(event)]: the event gets its target and the
    listeners run before the call returns. *)
Definition dispatchEvent (on : Node) (e : Event) (t : Template) : Template :=
  {| properties := properties t; confirmation := confirmation t; tree := tree t;
     promises := promises t;
     dispatched := dispatched t ++
       [ {| delivered := {| type := type e; bubbles := bubbles e;
                            cancelable := cancelable e; target := Some on |};
            seenTree := tree t;
            seenPromises := promises t |} ] |}.

(** The field initialisers and the constructor: the skeleton holds the
    [kids] supplied children, the shadow root holds the styles and the
    wrapper, the dialog holds its three slots; nothing is shown yet. *)
Definition construct (props : Properties) (kids : nat) : Template :=
  {| properties := props;
     confirmation := None;
     tree := <[Elements := [Styles; Wrapper]]>
             (<[Skeleton := Light <$> seq 0 kids]>
              (<[Dialog := [HeaderSlot; ContentSlot; FooterSlot]]> ∅));
     promises := [];
     dispatched := [] |}.

(** [show(modal?)] *)
Definition show (m : option bool) (t : Template) : Result Template :=
  t1 ← (if truthy (jsOr m (modal (properties t)))
        then d ← insertBefore Elements ModalSlot Wrapper (tree t); Ok (setTree d t)
        else Ok t);
  d ← appendChild Wrapper Dialog (tree t1);
  Ok (dispatchEvent Skeleton (newEvent "show"%string true false) (setTree d t1)).

(** [hide()] *)
Definition hide (t : Template) : Result Template :=
  let t1 := setTree (remove ModalSlot (tree t)) t in
  let t2 := setTree (remove Dialog (tree t1)) t1 in
  Ok (dispatchEvent Skeleton (newEvent "hide"%string true false) t2).

(** [ignoreHandler(event)], the click listener of the wrapper. *)
Definition ignoreHandler (event : Event) (t : Template) : Result Template :=
  if truthy (canIgnore (properties t)) && bool_decide (target event = Some Dialog)
  then hide t
  else Ok t.

(** [success()].  The body has no await, so it runs to its end within the
    call; the promise the async function returns carries no value. *)
Definition success (t : Template) : Result Template :=
  match confirmation t with
  | Some f =>
      let t1 := setPromises (call f true (promises t)) t in
      Ok (dispatchEvent Skeleton (newEvent "success"%string true false) t1)
  | None => Ok t
  end.

(** [failure()] *)
Definition failure (t : Template) : Result Template :=
  match confirmation t with
  | Some f =>
      let t1 := setPromises (call f false (promises t)) t in
      Ok (dispatchEvent Skeleton (newEvent "failure"%string true false) t1)
  | None => Ok t
  end.

(** [wait()].  The async function has its own promise [outer]; the body
    creates the promise [inner], whose executor stores [resolve] (and
    drops [reject]); returning [inner] makes [outer] adopt it.  The caller
    gets [outer]. *)
Definition wait (t : Template) : Template * nat :=
  let outer := length (promises t) in
  let inner := S outer in
  let t1 := setPromises (promises t ++ [Pending; Pending]) t in
  let t2 := setConfirmation (Some (ResolveOf inner)) t1 in
  let t3 := setPromises (<[outer := Adopt inner]> (promises t2)) t2 in
  (t3, outer).

(** What awaiting [q] delivers in the state [t]. *)
Definition outcome (t : Template) (q : nat) : PromiseState :=
  fate (length (promises t)) (promises t) q.

(** ** Calls from outside *)

Inductive Call : Type :=
  | CallShow (m : option bool)
  | CallHide
  | CallWait
  | CallSuccess
  | CallFailure
  | Click (on : Node).

(** A click whose target is [on], as the listener that [bindHandlers] put
    on the wrapper receives it. *)
Definition clickEvent (on : Node) : Event :=
  {| type := "click"%string; bubbles := true; cancelable := true; target := Some on |}.

(** One call of a method, or one click that reaches the wrapper. *)
Definition step (c : Call) (t : Template) : Result Template :=
  match c with
  | CallShow m => show m t
  | CallHide => hide t
  | CallWait => Ok (fst (wait t))
  | CallSuccess => success t
  | CallFailure => failure t
  | Click on => ignoreHandler (clickEvent on) t
  end.

Fixpoint run (cs : list Call) (t : Template) : Result Template :=
  match cs with
  | [] => Ok t
  | c :: cs' => t' ← step c t; run cs' t'
  end.

(** The states a dialog can be in: built by the constructor, then driven
    by calls. *)
Inductive Reachable : Template → Prop :=
  | reach_construct props kids : Reachable (construct props kids)
  | reach_step c t t' : Reachable t → step c t = Ok t' → Reachable t'.

(** Calls that leave the confirmation alone. *)
Definition visibilityCall (c : Call) : bool :=
  match c with
  | CallShow _ | CallHide | Click _ => true
  | _ => false
  end.

(** A state with a pending [wait()], and the awaitable that call
    returned: [wait()] was called, and since then only calls that leave
    the confirmation alone. *)
Inductive PendingWait : Template → nat → Prop :=
  | pending_wait t : PendingWait (fst (wait t)) (snd (wait t))
  | pending_kept c t t' q :
      PendingWait t q → visibilityCall c = true → step c t = Ok t' →
      PendingWait t' q.

(** No settle-function is pending: none is stored, or the stored one
    belongs to a promise that is settled already. *)
Definition noPendingSettle (t : Template) : Prop :=
  match confirmation t with
  | None => True
  | Some (ResolveOf p) | Some (RejectOf p) => promises t !! p ≠ Some Pending
  end.

(** The state after the calls [cs] (the state itself should one throw). *)
Definition after (cs : list Call) (t : Template) : Template :=
  match run cs t with
  | Ok t' => t'
  | Throw _ => t
  end.

(** A dialog without configuration and without children. *)
Definition plain : Template := construct {| modal := None; canIgnore := None |} 0.

(** The event a method dispatches on the skeleton, as a listener sees it
    in the state [t]. *)
Definition notification (name : string) (t : Template) : Delivery :=
  {| delivered := {| type := name; bubbles := true; cancelable := false;
                     target := Some Skeleton |};
     seenTree := tree t;
     seenPromises := promises t |}.

(** The name of the notification a method emits. *)
Definition methodName (c : Call) : option string :=
  match c with
  | CallShow _ => Some "show"%string
  | CallHide => Some "hide"%string
  | CallSuccess => Some "success"%string
  | CallFailure => Some "failure"%string
  | CallWait | Click _ => None
  end.

(** What a method has done to the state [t] when it returns [t']. *)
Definition mutated (c : Call) (t t' : Template) : Prop :=
  match c with
  | CallShow m =>
      Dialog ∈ children (tree t') Wrapper ∧
      (truthy m || truthy (modal (properties t)) = true →
       ModalSlot ∈ children (tree t') Elements)
  | CallHide => ¬ attached (tree t') ModalSlot ∧ ¬ attached (tree t') Dialog
  | CallSuccess => ∀ f, confirmation t = Some f → promises t' = call f true (promises t)
  | CallFailure => ∀ f, confirmation t = Some f → promises t' = call f false (promises t)
  | CallWait | Click _ => True
  end.

(** An awaitable nobody can settle any more: it follows a pending promise
    whose resolving functions are not the stored settle-function. *)
Definition Orphaned (t : Template) (q : nat) : Prop :=
  ∃ p, promises t !! q = Some (Adopt p) ∧ promises t !! p = Some Pending ∧
       confirmation t ≠ Some (ResolveOf p) ∧ confirmation t ≠ Some (RejectOf p).

(** Every adopted promise exists and is not itself an adopting one. *)
Definition Linked (ps : list PromiseState) : Prop :=
  ∀ q p, ps !! q = Some (Adopt p) → ∃ st, ps !! p = Some st ∧ ∀ p', st ≠ Adopt p'.

(** The stored settle-function is no rejecting one, and no promise has
    been rejected. *)
Record ResolveOnly (t : Template) : Prop := {
  stored_resolves : ∀ p, confirmation t ≠ Some (RejectOf p);
  none_rejected : ∀ q, promises t !! q ≠ Some Rejected;
  promises_linked : Linked (promises t)
}.

(** What awaiting [q] delivers, read off a linked store. *)
Definition delivers (ps : list PromiseState) (q : nat) : PromiseState :=
  match ps !! q with
  | Some (Adopt p) => default Pending (ps !! p)
  | Some st => st
  | None => Pending
  end.

(** A node is in the render tree when it lies below the shadow root. *)
Inductive inRenderTree (d : Tree) : Node → Prop :=
  | render_child n : n ∈ children d Elements → inRenderTree d n
  | render_below p n : inRenderTree d p → n ∈ children d p → inRenderTree d n.

(** The shape the tree keeps through the life of a dialog. *)
Record Shaped (d : Tree) : Prop := {
  shaped_root :
    children d Elements = [Styles; Wrapper] ∨
    children d Elements = [Styles; ModalSlot; Wrapper];
  shaped_wrapper : children d Wrapper = [] ∨ children d Wrapper = [Dialog];
  shaped_dialog : children d Dialog = [HeaderSlot; ContentSlot; FooterSlot];
  shaped_modal : children d ModalSlot = [];
  shaped_header : children d HeaderSlot = [];
  shaped_content : children d ContentSlot = [];
  shaped_footer : children d FooterSlot = [];
  shaped_modal_parent : ∀ p, ModalSlot ∈ children d p → p = Elements;
  shaped_dialog_parent : ∀ p, Dialog ∈ children d p → p = Wrapper
}.

(** The [element] getter: the skeleton. *)
Definition element (t : Template) : Node := Skeleton.

(** Neither the dialog body nor the backdrop has a parent. *)
Definition hidden (d : Tree) : Prop := ¬ attached d Dialog ∧ ¬ attached d ModalSlot.

(** The names of the notifications a call emits in the state [t]. *)
Definition emits (c : Call) (t : Template) : list string :=
  match c with
  | CallShow _ => ["show"%string]
  | CallHide => ["hide"%string]
  | CallWait => []
  | CallSuccess => if confirmation t is Some _ then ["success"%string] else []
  | CallFailure => if confirmation t is Some _ then ["failure"%string] else []
  | Click on =>
      if truthy (canIgnore (properties t)) && bool_decide (on = Dialog)
      then ["hide"%string] else []
  end.

(** How many notifications named [name] a log holds. *)
Definition countType (name : string) (log : list Delivery) : nat :=
  length (filter (λ dl, type (delivered dl) = name) log).

(** Calls of [show]; calls that hide under the properties [props]: [hide]
    itself and a click on the dialog body when [canIgnore] is truthy. *)
Definition shows (c : Call) : bool :=
  match c with
  | CallShow _ => true
  | _ => false
  end.

Definition hides (props : Properties) (c : Call) : bool :=
  match c with
  | CallHide => true
  | Click on => truthy (canIgnore props) && bool_decide (on = Dialog)
  | _ => false
  end.

Definition succeeds (c : Call) : bool :=
  match c with
  | CallSuccess => true
  | _ => false
  end.

Definition fails (c : Call) : bool :=
  match c with
  | CallFailure => true
  | _ => false
  end.

Definition waits (c : Call) : bool :=
  match c with
  | CallWait => true
  | _ => false
  end.

(** A notification as every method builds it: on the skeleton, bubbling,
    not cancelable, with one of the four names. *)
Definition wellFormed (t : Template) (dl : Delivery) : Prop :=
  target (delivered dl) = Some (element t) ∧
  bubbles (delivered dl) = true ∧
  cancelable (delivered dl) = false ∧
  type (delivered dl) ∈ ["show"; "hide"; "success"; "failure"]%string.

(** The awaitable [q] has delivered [b]: it adopted a promise fulfilled
    with [b]. *)
Definition Settled (t : Template) (q : nat) (b : bool) : Prop :=
  ∃ p, promises t !! q = Some (Adopt p) ∧ promises t !! p = Some (Fulfilled b).

(** The backdrop is shown with the body only, and always with it when the
    [modal] property is truthy. *)
Record Consistent (t : Template) : Prop := {
  consistent_shaped : Shaped (tree t);
  consistent_backdrop :
    children (tree t) Elements = [Styles; ModalSlot; Wrapper] →
    children (tree t) Wrapper = [Dialog];
  consistent_modal :
    truthy (modal (properties t)) = true →
    children (tree t) Wrapper = [Dialog] →
    children (tree t) Elements = [Styles; ModalSlot; Wrapper]
}.

(** A dialog that is modal by configuration, dismissed by a click on its
    body, with two children. *)
Definition modalDialog : Template :=
  construct {| modal := Some true; canIgnore := Some true |} 2.

(** * Properties *)

(** Membership in an explicit list of nodes, by cases. *)
Ltac among H := apply list_elem_of_In in H; cbn in H; intuition discriminate.

(** ** The node tree *)

Section tree.
Implicit Types (d : Tree) (n p q : Node) (l : list Node).

Lemma children_remove n d p :
  children (remove n d) p = filter (λ c, c ≠ n) (children d p).
Proof. unfold children, remove. rewrite lookup_fmap. by destruct (d !! p). Qed.

Lemma children_insert p l d q :
  children (<[p := l]> d) q = if decide (p = q) then l else children d q.
Proof. unfold children. rewrite lookup_insert. by case_decide. Qed.

Lemma filter_absent n l : n ∉ l → filter (λ c, c ≠ n) l = l.
Proof.
  induction l as [|c l IH]; intros Hn; [done|].
  apply not_elem_of_cons in Hn as [Hc Hl].
  rewrite filter_cons. case_decide; [by rewrite IH | congruence].
Qed.

Lemma remove_detaches n d : ¬ attached (remove n d) n.
Proof.
  intros [p Hp]. rewrite children_remove in Hp.
  apply list_elem_of_filter in Hp as [Hne _]. by apply Hne.
Qed.

Lemma remove_keeps_detached n m d : ¬ attached d m → ¬ attached (remove n d) m.
Proof.
  intros Hm [p Hp]. apply Hm. exists p.
  rewrite children_remove in Hp. by apply list_elem_of_filter in Hp as [_ ?].
Qed.

Lemma remove_absent n d : ¬ attached d n → remove n d = d.
Proof.
  intros Hn. apply map_eq; intros p. unfold remove. rewrite lookup_fmap.
  destruct (d !! p) as [l|] eqn:Hl; [|done]. cbn. f_equal.
  apply filter_absent. intros Hin. apply Hn. exists p.
  unfold children. by rewrite Hl.
Qed.

Lemma inRenderTree_attached d n : inRenderTree d n → attached d n.
Proof. destruct 1; eexists; eauto. Qed.

Lemma placeBefore_spec n ref l1 l2 :
  ref ∉ l1 → placeBefore n ref (l1 ++ ref :: l2) = l1 ++ n :: ref :: l2.
Proof.
  induction l1 as [|c l1 IH]; intros Hr; cbn.
  - by rewrite decide_True.
  - apply not_elem_of_cons in Hr as [Hc Hl].
    rewrite decide_False by congruence. by rewrite IH.
Qed.

End tree.

(** ** The shape is kept *)

Section shape.
Implicit Types (d : Tree) (n p q : Node) (t : Template).

Lemma children_empty p : children (∅ : Tree) p = [].
Proof. unfold children. by rewrite lookup_empty. Qed.

Lemma construct_shaped props kids : Shaped (tree (construct props kids)).
Proof.
  assert (∀ n, (∀ i, n ≠ Light i) → ∀ p,
    n ∈ children (tree (construct props kids)) p →
    n ∈ [Styles; Wrapper] ∧ p = Elements ∨
    n ∈ [HeaderSlot; ContentSlot; FooterSlot] ∧ p = Dialog) as Hpar.
  { intros n Hn p. cbn [construct tree]. rewrite !children_insert.
    repeat case_decide; subst; rewrite ?children_empty; auto.
    - intros [i [-> _]]%list_elem_of_fmap. by destruct (Hn i).
    - intros []%elem_of_nil. }
  split; try (cbn [construct tree]; rewrite !children_insert;
              repeat case_decide; try congruence; rewrite ?children_empty; by auto).
  - intros p Hp. destruct (Hpar ModalSlot ltac:(done) p Hp) as [[Hq _]|[Hq _]]; among Hq.
  - intros p Hp. destruct (Hpar Dialog ltac:(done) p Hp) as [[Hq _]|[Hq _]]; among Hq.
Qed.

Lemma modal_not_above d p :
  Shaped d → inclusiveAncestor d ModalSlot p = bool_decide (ModalSlot = p).
Proof.
  intros Hd. unfold inclusiveAncestor.
  destruct (size d); cbn [descends]; rewrite ?(shaped_modal d Hd); cbn;
    by rewrite orb_false_r.
Qed.

Lemma leaf_descends d fuel n p : children d n = [] → descends d fuel n p = false.
Proof. intros Hn. destruct fuel; cbn [descends]; by rewrite ?Hn. Qed.

Lemma dialog_not_above_wrapper d : Shaped d → inclusiveAncestor d Dialog Wrapper = false.
Proof.
  intros Hd. unfold inclusiveAncestor.
  destruct (size d) as [|fuel]; cbn [descends]; [done|].
  rewrite (shaped_dialog d Hd). cbn [existsb].
  rewrite !leaf_descends by (by destruct Hd). done.
Qed.

(** Inserting the backdrop: it lands between the styles and the wrapper,
    once, whether it was there or not. *)
Lemma insertBefore_modal d :
  Shaped d →
  ∃ d', insertBefore Elements ModalSlot Wrapper d = Ok d' ∧
        children d' Elements = [Styles; ModalSlot; Wrapper] ∧
        (∀ p, p ≠ Elements → children d' p = children d p).
Proof.
  intros Hd. unfold insertBefore.
  rewrite modal_not_above by done. rewrite bool_decide_eq_false_2 by done.
  rewrite bool_decide_eq_true_2
    by (destruct (shaped_root d Hd) as [-> | ->]; rewrite !elem_of_cons; auto).
  rewrite bool_decide_eq_false_2 by done.
  eexists; split; [done|]. split.
  - rewrite children_insert, decide_True by done. rewrite children_remove.
    by destruct (shaped_root d Hd) as [-> | ->].
  - intros p Hp. rewrite children_insert, decide_False by done.
    rewrite children_remove. apply filter_absent.
    intros Hin. by apply Hp, (shaped_modal_parent d Hd).
Qed.

(** Attaching the dialog body: it becomes the only child of the wrapper. *)
Lemma appendChild_dialog d :
  Shaped d →
  ∃ d', appendChild Wrapper Dialog d = Ok d' ∧
        children d' Wrapper = [Dialog] ∧
        (∀ p, p ≠ Wrapper → children d' p = children d p).
Proof.
  intros Hd. unfold appendChild. rewrite dialog_not_above_wrapper by done.
  eexists; split; [done|]. split.
  - rewrite children_insert, decide_True by done. rewrite children_remove.
    by destruct (shaped_wrapper d Hd) as [-> | ->].
  - intros p Hp. rewrite children_insert, decide_False by done.
    rewrite children_remove. apply filter_absent.
    intros Hin. by apply Hp, (shaped_dialog_parent d Hd).
Qed.

Lemma shaped_modal_in d d' :
  Shaped d →
  children d' Elements = [Styles; ModalSlot; Wrapper] →
  (∀ p, p ≠ Elements → children d' p = children d p) →
  Shaped d'.
Proof.
  intros Hd He Ho. split; try (rewrite Ho by done; by destruct Hd); auto.
  - intros p Hp. destruct (decide (p = Elements)); [done|].
    rewrite Ho in Hp by done. by apply (shaped_modal_parent d Hd).
  - intros p Hp. destruct (decide (p = Elements)) as [->|].
    + rewrite He in Hp. among Hp.
    + rewrite Ho in Hp by done. by apply (shaped_dialog_parent d Hd).
Qed.

Lemma shaped_dialog_in d d' :
  Shaped d →
  children d' Wrapper = [Dialog] →
  (∀ p, p ≠ Wrapper → children d' p = children d p) →
  Shaped d'.
Proof.
  intros Hd Hw Ho. split; try (rewrite Ho by done; by destruct Hd); auto.
  - intros p Hp. destruct (decide (p = Wrapper)) as [->|].
    + rewrite Hw in Hp. among Hp.
    + rewrite Ho in Hp by done. by apply (shaped_modal_parent d Hd).
  - intros p Hp. destruct (decide (p = Wrapper)); [done|].
    rewrite Ho in Hp by done. by apply (shaped_dialog_parent d Hd).
Qed.

Lemma shaped_removed d : Shaped d → Shaped (remove Dialog (remove ModalSlot d)).
Proof.
  intros Hd. split; rewrite ?children_remove.
  - left. by destruct (shaped_root d Hd) as [-> | ->].
  - left. by destruct (shaped_wrapper d Hd) as [-> | ->].
  - by rewrite (shaped_dialog d Hd).
  - by rewrite (shaped_modal d Hd).
  - by rewrite (shaped_header d Hd).
  - by rewrite (shaped_content d Hd).
  - by rewrite (shaped_footer d Hd).
  - intros p Hp. rewrite !children_remove in Hp.
    apply list_elem_of_filter in Hp as [_ Hp].
    by apply list_elem_of_filter in Hp as [Hp _].
  - intros p Hp. rewrite !children_remove in Hp.
    by apply list_elem_of_filter in Hp as [Hp _].
Qed.

End shape.

(** ** What each method does to the state *)

Section methods.
Implicit Types (d : Tree) (n p q : Node) (t : Template) (m : option bool).

Lemma truthy_jsOr a b : truthy (jsOr a b) = truthy a || truthy b.
Proof. unfold jsOr. by destruct (truthy a) eqn:Ha; rewrite ?Ha. Qed.

Lemma show_shaped m t :
  Shaped (tree t) →
  ∃ t', show m t = Ok t' ∧
    Shaped (tree t') ∧
    children (tree t') Elements =
      (if truthy m || truthy (modal (properties t))
       then [Styles; ModalSlot; Wrapper] else children (tree t) Elements) ∧
    children (tree t') Wrapper = [Dialog] ∧
    properties t' = properties t ∧
    confirmation t' = confirmation t ∧
    promises t' = promises t ∧
    dispatched t' = dispatched t ++ [notification "show" t'].
Proof.
  intros Ht. unfold show. rewrite truthy_jsOr.
  destruct (truthy m || truthy (modal (properties t))).
  - destruct (insertBefore_modal _ Ht) as (d1 & -> & He & Ho). cbn.
    assert (Shaped d1) as H1 by eauto using shaped_modal_in.
    destruct (appendChild_dialog _ H1) as (d2 & -> & Hw & Ho2). cbn.
    eexists; split; [done|]. cbn.
    split_and!; eauto using shaped_dialog_in. by rewrite Ho2.
  - cbn. destruct (appendChild_dialog _ Ht) as (d2 & -> & Hw & Ho2). cbn.
    eexists; split; [done|]. cbn.
    split_and!; eauto using shaped_dialog_in.
Qed.

Lemma hide_eq t :
  ∃ t', hide t = Ok t' ∧
    tree t' = remove Dialog (remove ModalSlot (tree t)) ∧
    properties t' = properties t ∧
    confirmation t' = confirmation t ∧
    promises t' = promises t ∧
    dispatched t' = dispatched t ++ [notification "hide" t'].
Proof. eexists; split; [done|]. by cbn. Qed.

Lemma ignoreHandler_eq e t :
  ignoreHandler e t =
    if truthy (canIgnore (properties t)) && bool_decide (target e = Some Dialog)
    then hide t else Ok t.
Proof. done. Qed.

Lemma step_shaped c t :
  Shaped (tree t) → ∃ t', step c t = Ok t' ∧ Shaped (tree t').
Proof.
  intros Ht. destruct c as [m| | | | |on]; cbn [step].
  - destruct (show_shaped m t Ht) as (t' & -> & ? & _). eauto.
  - eexists; split; [done|]. cbn. by apply shaped_removed.
  - eauto.
  - unfold success. destruct (confirmation t); eauto.
  - unfold failure. destruct (confirmation t); eauto.
  - rewrite ignoreHandler_eq. case_match; [|by eauto].
    eexists; split; [done|]. cbn. by apply shaped_removed.
Qed.

Lemma Reachable_shaped t : Reachable t → Shaped (tree t).
Proof.
  induction 1 as [props kids|c t t' _ IH Hstep]; [apply construct_shaped|].
  destruct (step_shaped c t IH) as (t2 & Ht2 & ?). congruence.
Qed.

(** No call throws in a state a dialog can be in. *)
Lemma Reachable_step c t : Reachable t → ∃ t', step c t = Ok t' ∧ Reachable t'.
Proof.
  intros Ht. destruct (step_shaped c t (Reachable_shaped t Ht)) as (t' & Ht' & _).
  eauto using reach_step.
Qed.

Lemma Reachable_run cs t : Reachable t → ∃ t', run cs t = Ok t' ∧ Reachable t'.
Proof.
  revert t. induction cs as [|c cs IH]; intros t Ht; cbn [run]; [by eauto|].
  destruct (Reachable_step c t Ht) as (t1 & -> & Ht1). cbn. by apply IH.
Qed.

End methods.

(** ** Visibility *)

Section visibility.
Implicit Types (d : Tree) (n p q : Node) (t : Template) (m : option bool).

Lemma shaped_modal_rendered d :
  Shaped d → (inRenderTree d ModalSlot ↔ children d Elements = [Styles; ModalSlot; Wrapper]).
Proof.
  intros Hd. split.
  - intros Hr. apply inRenderTree_attached in Hr as [p Hp].
    pose proof (shaped_modal_parent d Hd p Hp) as ->.
    destruct (shaped_root d Hd) as [He|He]; [|done].
    rewrite He in Hp. among Hp.
  - intros He. apply render_child. rewrite He, !elem_of_cons. auto.
Qed.

(** C1, as amended: in every state a dialog can be in, [show(m)] does not
    throw; afterwards the backdrop is in the render tree exactly when [m]
    or the [modal] property is truthy or the backdrop was there before the
    call; when neither is truthy the children of the shadow root are left
    as they were; a backdrop in the tree is the immediate predecessor of
    the wrapper; the dialog body is the child of the wrapper in every
    case. *)
Theorem show_backdrop_when_modal_or_present m t :
  Reachable t →
  ∃ t', show m t = Ok t' ∧
    (inRenderTree (tree t') ModalSlot ↔
       truthy m = true ∨ truthy (modal (properties t)) = true ∨
       inRenderTree (tree t) ModalSlot) ∧
    (truthy m = false → truthy (modal (properties t)) = false →
       children (tree t') Elements = children (tree t) Elements) ∧
    (inRenderTree (tree t') ModalSlot →
       immediatelyBefore (tree t') Elements ModalSlot Wrapper) ∧
    children (tree t') Wrapper = [Dialog] ∧
    inRenderTree (tree t') Dialog.
Proof.
  intros Ht%Reachable_shaped.
  destruct (show_shaped m t Ht) as (t' & Hs & Ht' & He & Hw & _).
  exists t'. split; [done|]. split_and!.
  - rewrite !shaped_modal_rendered by done. rewrite He.
    destruct (truthy m), (truthy (modal (properties t))); cbn; intuition congruence.
  - intros Hm Hp. by rewrite He, Hm, Hp.
  - intros Hr%shaped_modal_rendered; [|done].
    exists [Styles], []. by rewrite Hr.
  - done.
  - apply render_below with Wrapper.
    + apply render_child.
      destruct (shaped_root _ Ht') as [-> | ->]; rewrite !elem_of_cons; auto.
    + rewrite Hw. apply list_elem_of_here.
Qed.

(** C2: in every state, [hide()] returns; afterwards neither the backdrop
    nor the dialog body has a parent, every other node keeps its place,
    and removing a node that had no parent changes nothing; a second
    [hide()] leaves the tree as the first one left it; each of the two
    calls appends exactly one [hide] notification. *)
Theorem hide_removes_and_is_idempotent t :
  ∃ t1 t2, hide t = Ok t1 ∧ hide t1 = Ok t2 ∧
    ¬ attached (tree t1) ModalSlot ∧ ¬ attached (tree t1) Dialog ∧
    ¬ inRenderTree (tree t1) ModalSlot ∧ ¬ inRenderTree (tree t1) Dialog ∧
    (∀ n p, n ≠ ModalSlot → n ≠ Dialog →
       (n ∈ children (tree t1) p ↔ n ∈ children (tree t) p)) ∧
    (¬ attached (tree t) ModalSlot → tree t1 = remove Dialog (tree t)) ∧
    (¬ attached (tree t) Dialog → tree t1 = remove ModalSlot (tree t)) ∧
    (¬ attached (tree t) ModalSlot → ¬ attached (tree t) Dialog → tree t1 = tree t) ∧
    tree t2 = tree t1 ∧
    ¬ attached (tree t2) ModalSlot ∧ ¬ attached (tree t2) Dialog ∧
    dispatched t1 = dispatched t ++ [notification "hide" t1] ∧
    dispatched t2 = dispatched t1 ++ [notification "hide" t2].
Proof.
  destruct (hide_eq t) as (t1 & H1 & Hd1 & _ & _ & _ & Hn1).
  destruct (hide_eq t1) as (t2 & H2 & Hd2 & _ & _ & _ & Hn2).
  assert (¬ attached (tree t1) ModalSlot) as Hm.
  { rewrite Hd1. apply remove_keeps_detached, remove_detaches. }
  assert (¬ attached (tree t1) Dialog) as Hb.
  { rewrite Hd1. apply remove_detaches. }
  assert (tree t2 = tree t1) as Heq.
  { rewrite Hd2. by rewrite (remove_absent ModalSlot), (remove_absent Dialog). }
  exists t1, t2. split_and!; try done.
  - by intros ?%inRenderTree_attached.
  - by intros ?%inRenderTree_attached.
  - intros n p Hn1' Hn2'. rewrite Hd1, !children_remove, !list_elem_of_filter.
    tauto.
  - intros Ha. by rewrite Hd1, (remove_absent ModalSlot).
  - intros Ha. rewrite Hd1. apply remove_absent. by apply remove_keeps_detached.
  - intros Ha1 Ha2. by rewrite Hd1, (remove_absent ModalSlot), (remove_absent Dialog).
  - by rewrite Heq.
  - by rewrite Heq.
Qed.

Lemma hide_changes t : hide t ≠ Ok t.
Proof.
  destruct (hide_eq t) as (t1 & -> & _ & _ & _ & _ & Hn). intros [= ->].
  apply (f_equal length) in Hn. rewrite length_app in Hn. cbn in Hn. lia.
Qed.

(** C6: the click listener of the wrapper runs [hide()] exactly when
    [canIgnore] is truthy and the target of the event is the dialog body
    itself; in every other case, a click on a slot or on supplied content
    among them, it returns the state as it got it. *)
Theorem ignoreHandler_hides_on_body_click (event : Event) t :
  (ignoreHandler event t = hide t ↔
     truthy (canIgnore (properties t)) = true ∧ target event = Some Dialog) ∧
  (ignoreHandler event t = Ok t ↔
     ¬ (truthy (canIgnore (properties t)) = true ∧ target event = Some Dialog)) ∧
  (∀ n, n ≠ Dialog → step (Click n) t = Ok t) ∧
  (truthy (canIgnore (properties t)) = false → ∀ n, step (Click n) t = Ok t) ∧
  (truthy (canIgnore (properties t)) = true → step (Click Dialog) t = hide t).
Proof.
  pose proof (hide_changes t) as Hne.
  assert (∀ n, n ≠ Dialog → bool_decide (Some n = Some Dialog) = false) as Hother.
  { intros n Hn. apply bool_decide_eq_false_2. congruence. }
  split_and!.
  - rewrite ignoreHandler_eq.
    destruct (truthy (canIgnore (properties t))); cbn;
      [case_bool_decide|]; intuition congruence.
  - rewrite ignoreHandler_eq.
    destruct (truthy (canIgnore (properties t))); cbn;
      [case_bool_decide|]; intuition congruence.
  - intros n Hn. cbn [step]. rewrite ignoreHandler_eq. cbn [target clickEvent].
    by rewrite Hother, andb_false_r.
  - intros Hc n. cbn [step]. rewrite ignoreHandler_eq. by rewrite Hc.
  - intros Hc. cbn [step]. rewrite ignoreHandler_eq. by rewrite Hc.
Qed.

End visibility.

(** ** Confirmation *)

Section confirmation.
Implicit Types (t : Template) (ps : list PromiseState) (q p : nat).

Lemma show_ok m t t' :
  show m t = Ok t' →
  properties t' = properties t ∧ confirmation t' = confirmation t ∧
  promises t' = promises t ∧
  dispatched t' = dispatched t ++ [notification "show" t'] ∧
  Dialog ∈ children (tree t') Wrapper.
Proof.
  assert (∀ d d', appendChild Wrapper Dialog d = Ok d' →
                  Dialog ∈ children d' Wrapper) as Happ.
  { intros d d'. unfold appendChild. case_match; [done|]. intros [= <-].
    rewrite children_insert, decide_True by done.
    apply elem_of_app. right. apply list_elem_of_here. }
  unfold show. destruct (truthy _).
  - destruct (insertBefore _ _ _ _) as [d1|]; [cbn|done].
    destruct (appendChild _ _ d1) as [d2|] eqn:H2; [cbn|done].
    intros [= <-]. cbn. eauto 10.
  - cbn. destruct (appendChild _ _ _) as [d2|] eqn:H2; [cbn|done].
    intros [= <-]. cbn. eauto 10.
Qed.

Lemma visibility_frame c t t' :
  visibilityCall c = true → step c t = Ok t' →
  properties t' = properties t ∧ confirmation t' = confirmation t ∧
  promises t' = promises t.
Proof.
  destruct c as [m| | | | |on]; try done; intros _; cbn [step].
  - intros (? & ? & ? & _)%show_ok. done.
  - by intros [= <-].
  - rewrite ignoreHandler_eq. case_match; by intros [= <-].
Qed.

Lemma outcome_promises t t' q : promises t' = promises t → outcome t' q = outcome t q.
Proof. unfold outcome. by intros ->. Qed.

Lemma fate_direct fuel ps q st :
  ps !! q = Some st → (∀ p, st ≠ Adopt p) → fate fuel ps q = st.
Proof. intros Hq Hst. destruct fuel; cbn; rewrite Hq; destruct st; congruence. Qed.

Lemma fate_adopted ps q p st :
  ps !! q = Some (Adopt p) → ps !! p = Some st → (∀ p', st ≠ Adopt p') →
  fate (length ps) ps q = st.
Proof.
  intros Hq Hp Hst. apply lookup_lt_Some in Hq as Hlt.
  destruct (length ps) as [|fuel]; [lia|]. cbn. rewrite Hq.
  by apply fate_direct.
Qed.

Lemma wait_stored t :
  confirmation (fst (wait t)) = Some (ResolveOf (S (snd (wait t)))) ∧
  promises (fst (wait t)) !! snd (wait t) = Some (Adopt (S (snd (wait t)))) ∧
  promises (fst (wait t)) !! S (snd (wait t)) = Some Pending ∧
  snd (wait t) = length (promises t) ∧
  (∀ i, i < length (promises t) → promises (fst (wait t)) !! i = promises t !! i) ∧
  length (promises (fst (wait t))) = S (S (length (promises t))) ∧
  tree (fst (wait t)) = tree t ∧ dispatched (fst (wait t)) = dispatched t ∧
  properties (fst (wait t)) = properties t.
Proof.
  cbn. split_and!; try done.
  - apply list_lookup_insert_eq. rewrite length_app. cbn. lia.
  - rewrite list_lookup_insert_ne by lia.
    rewrite lookup_app_r by lia. by replace (S _ - _) with 1 by lia.
  - intros i Hi. rewrite list_lookup_insert_ne by lia. by apply lookup_app_l.
  - rewrite length_insert, length_app. cbn. lia.
Qed.

Lemma PendingWait_stored t q :
  PendingWait t q →
  confirmation t = Some (ResolveOf (S q)) ∧
  promises t !! q = Some (Adopt (S q)) ∧
  promises t !! S q = Some Pending.
Proof.
  induction 1 as [t|c t t' q _ IH Hc Hstep].
  - by destruct (wait_stored t) as (? & ? & ? & _).
  - destruct (visibility_frame c t t' Hc Hstep) as (_ & -> & ->). done.
Qed.

Lemma settled_outcome t t' q (v : bool) :
  promises t !! q = Some (Adopt (S q)) →
  promises t !! S q = Some Pending →
  promises t' = call (ResolveOf (S q)) v (promises t) →
  outcome t' q = Fulfilled v.
Proof.
  intros Hq Hp Hps. unfold outcome. rewrite Hps. cbn. unfold settle. rewrite Hp.
  apply lookup_lt_Some in Hp as Hlt.
  apply fate_adopted with (S q); [|by apply list_lookup_insert_eq|done].
  by rewrite list_lookup_insert_ne by lia.
Qed.

(** C7: any number of [hide()] calls in a row returns, and leaves the
    stored settle-function and all promises as they were; so every
    awaitable delivers what it delivered before, and one that was pending
    is pending still. *)
Theorem hide_keeps_confirmation (k : nat) t :
  ∃ t', run (replicate k CallHide) t = Ok t' ∧
    confirmation t' = confirmation t ∧
    promises t' = promises t ∧
    (∀ q, outcome t' q = outcome t q) ∧
    (∀ q, PendingWait t q → PendingWait t' q ∧ outcome t' q = Pending).
Proof.
  revert t. induction k as [|k IH]; intros t.
  - exists t. split_and!; try done. intros q Hq. split; [done|].
    destruct (PendingWait_stored t q Hq) as (_ & Ha & Hp).
    unfold outcome. by apply fate_adopted with (S q).
  - destruct (hide_eq t) as (t1 & H1 & _ & _ & Hc & Hp & _).
    destruct (IH t1) as (t' & Hrun & Hc' & Hp' & Ho & Hw).
    exists t'. cbn [replicate run step]. rewrite H1. cbn. split_and!; try done.
    + congruence.
    + congruence.
    + intros q. rewrite Ho. by apply outcome_promises.
    + intros q Hq. apply Hw. by apply pending_kept with CallHide t.
Qed.

(** C5: in a state with a pending [wait()], [success()] makes the
    awaitable of that call deliver [true] and appends exactly one
    [success] notification; [failure()] in its place makes it deliver
    [false] and appends exactly one [failure] notification.  Before
    either call the awaitable is pending. *)
Theorem success_failure_settle_pending_wait t q :
  PendingWait t q →
  outcome t q = Pending ∧
  (∃ t1, success t = Ok t1 ∧ outcome t1 q = Fulfilled true ∧
         dispatched t1 = dispatched t ++ [notification "success" t1]) ∧
  (∃ t2, failure t = Ok t2 ∧ outcome t2 q = Fulfilled false ∧
         dispatched t2 = dispatched t ++ [notification "failure" t2]).
Proof.
  intros (Hc & Ha & Hp)%PendingWait_stored. split_and!.
  - unfold outcome. by apply fate_adopted with (S q).
  - unfold success. rewrite Hc. eexists; split; [done|]. split; [|done].
    by apply settled_outcome with t.
  - unfold failure. rewrite Hc. eexists; split; [done|]. split; [|done].
    by apply settled_outcome with t.
Qed.

Lemma settle_settled p st ps : ps !! p ≠ Some Pending → settle p st ps = ps.
Proof. unfold settle. intros Hp. by destruct (ps !! p) as [[]|]. Qed.

(** C4, as amended: in a state in which no settle-function is pending,
    [success()] and [failure()] return without an error and settle no
    awaitable: the promises, and with them what every awaitable
    delivers, stay as they were.  When no settle-function is stored at
    all, both calls return the state untouched, so no notification is
    emitted either. *)
Theorem success_failure_without_pending_settle t :
  noPendingSettle t →
  ∃ t1 t2, success t = Ok t1 ∧ failure t = Ok t2 ∧
    promises t1 = promises t ∧ promises t2 = promises t ∧
    (∀ q, outcome t1 q = outcome t q ∧ outcome t2 q = outcome t q) ∧
    (confirmation t = None → t1 = t ∧ t2 = t).
Proof.
  unfold noPendingSettle, success, failure. intros Hn.
  destruct (confirmation t) as [f|] eqn:Hc.
  - assert (∀ v, call f v (promises t) = promises t) as Hcall.
    { intros v. destruct f; cbn; by apply settle_settled. }
    do 2 eexists. split; [done|]. split; [done|]. cbn. rewrite !Hcall.
    split_and!; done.
  - exists t, t. split_and!; done.
Qed.

(** C9, as amended: the [success] and the [failure] notification are
    dispatched on the skeleton, the element the dialog exposes, as
    bubbling events that cannot be cancelled. *)
Theorem success_failure_dispatch_on_skeleton t (f : Callable) :
  confirmation t = Some f →
  ∃ t1 t2 d1 d2,
    success t = Ok t1 ∧ dispatched t1 = dispatched t ++ [d1] ∧
    delivered d1 = {| type := "success"; bubbles := true; cancelable := false;
                      target := Some Skeleton |} ∧
    failure t = Ok t2 ∧ dispatched t2 = dispatched t ++ [d2] ∧
    delivered d2 = {| type := "failure"; bubbles := true; cancelable := false;
                      target := Some Skeleton |}.
Proof.
  intros Hc. unfold success, failure. rewrite Hc.
  do 4 eexists. split_and!; done.
Qed.

End confirmation.

(** ** Notifications *)

Section notifications.
Implicit Types (t : Template) (d : Tree).

Lemma placeBefore_in n ref l : n ∈ placeBefore n ref l.
Proof.
  induction l as [|c l IH]; cbn; [apply list_elem_of_here|].
  case_decide; [apply list_elem_of_here|by apply list_elem_of_further].
Qed.

Lemma show_modal_in m t t' :
  show m t = Ok t' →
  truthy m || truthy (modal (properties t)) = true →
  ModalSlot ∈ children (tree t') Elements.
Proof.
  unfold show. rewrite truthy_jsOr. intros Hs Hm. rewrite Hm in Hs.
  destruct (insertBefore _ _ _ _) as [d1|] eqn:H1; [cbn in Hs|done].
  destruct (appendChild _ _ d1) as [d2|] eqn:H2; [cbn in Hs|done].
  injection Hs as <-. cbn.
  unfold appendChild in H2. case_match; [done|]. injection H2 as <-.
  rewrite children_insert, decide_False by done.
  rewrite children_remove. apply list_elem_of_filter. split; [done|].
  unfold insertBefore in H1. repeat case_match; try done.
  injection H1 as <-. rewrite children_insert, decide_True by done.
  apply placeBefore_in.
Qed.

(** C8: when [show], [hide], [success] or [failure] returns, the state it
    returns holds what the method did (the body in the wrapper and the
    backdrop where asked for; both gone; the promise settled), and the
    notification the method emitted is the last entry of the log of that
    same returned state, taken with the tree and the promises of that
    state: it was dispatched after the change and before the return, and
    its listener saw the state as the method left it.  [show] and [hide]
    emit one notification in every call; [success] and [failure] emit
    one when a settle-function is stored and none otherwise. *)
Theorem notification_sees_final_state (c : Call) (name : string) t t' :
  methodName c = Some name →
  step c t = Ok t' →
  mutated c t t' ∧
  ((∃ dl, dispatched t' = dispatched t ++ [dl] ∧
          type (delivered dl) = name ∧
          seenTree dl = tree t' ∧ seenPromises dl = promises t') ∨
   (dispatched t' = dispatched t ∧ confirmation t = None ∧
    (c = CallSuccess ∨ c = CallFailure))).
Proof.
  destruct c as [m| | | | |on]; cbn [methodName step mutated]; try done;
    intros [= <-] Hstep.
  - pose proof (show_ok m t t' Hstep) as (_ & _ & _ & Hd & Hb).
    split; [split; [done|by apply show_modal_in]|].
    left. eexists; split; [done|]. done.
  - destruct (hide_eq t) as (t1 & H1 & Hd & _ & _ & _ & Hn).
    rewrite H1 in Hstep. injection Hstep as ->. split.
    + rewrite Hd. split; [apply remove_keeps_detached|]; apply remove_detaches.
    + left. by eexists.
  - unfold success in Hstep. destruct (confirmation t) as [f|];
      injection Hstep as <-.
    + split; [by intros ? [= <-]|]. left. eexists; split; done.
    + split; [done|]. right. auto.
  - unfold failure in Hstep. destruct (confirmation t) as [f|];
      injection Hstep as <-.
    + split; [by intros ? [= <-]|]. left. eexists; split; done.
    + split; [done|]. right. auto.
Qed.

End notifications.

(** ** An overwritten wait *)

Section orphans.
Implicit Types (t : Template) (ps : list PromiseState) (q p : nat).

Lemma settle_lookup p0 st ps i :
  settle p0 st ps !! i =
    if decide (i = p0 ∧ ps !! i = Some Pending) then Some st else ps !! i.
Proof.
  unfold settle. case_decide as Hi.
  - destruct Hi as [-> Hp]. rewrite Hp. apply list_lookup_insert_eq.
    by apply lookup_lt_Some in Hp.
  - destruct (ps !! p0) as [[]|] eqn:Hp; try done.
    rewrite list_lookup_insert_ne; [done|]. intros <-. by apply Hi.
Qed.

Lemma call_lookup_other (f : Callable) v ps i st :
  ps !! i = Some st → f ≠ ResolveOf i → f ≠ RejectOf i →
  call f v ps !! i = Some st.
Proof.
  intros Hi Hr Hj. destruct f as [p0|p0]; cbn; rewrite settle_lookup;
    (rewrite decide_False; [done|]); intros [-> _]; congruence.
Qed.

Lemma call_lookup_adopt (f : Callable) v ps i p :
  ps !! i = Some (Adopt p) → call f v ps !! i = Some (Adopt p).
Proof.
  intros Hi. destruct f as [p0|p0]; cbn; rewrite settle_lookup;
    (rewrite decide_False; [done|]); intros [_ ?]; congruence.
Qed.

Lemma Orphaned_settle t q (f : Callable) v t1 :
  Orphaned t q → confirmation t = Some f →
  promises t1 = call f v (promises t) → confirmation t1 = confirmation t →
  Orphaned t1 q.
Proof.
  intros (p & Hq & Hp & Hr & Hj) Hc Hps Hc1. exists p.
  rewrite Hps, Hc1. split_and!; try done.
  - by apply call_lookup_adopt.
  - apply call_lookup_other; congruence.
Qed.

Lemma Orphaned_step c t t' q : Orphaned t q → step c t = Ok t' → Orphaned t' q.
Proof.
  intros Ho Hstep.
  destruct (visibilityCall c) eqn:Hv.
  { destruct (visibility_frame c t t' Hv Hstep) as (_ & Hc & Hps).
    destruct Ho as (p & ?). exists p. by rewrite Hc, Hps. }
  destruct c as [m| | | | |on]; try done; cbn [step] in Hstep.
  - injection Hstep as <-. destruct Ho as (p & Hq & Hp & _).
    destruct (wait_stored t) as (Hc & _ & _ & Hlen & Hold & _).
    apply lookup_lt_Some in Hq as Hql. apply lookup_lt_Some in Hp as Hpl.
    exists p. rewrite !Hold by done.
    split_and!; [done|done|..]; cbn; intros [= ?]; lia.
  - unfold success in Hstep. destruct (confirmation t) as [f|] eqn:Hc;
      injection Hstep as <-; [|done].
    by apply Orphaned_settle with t f true.
  - unfold failure in Hstep. destruct (confirmation t) as [f|] eqn:Hc;
      injection Hstep as <-; [|done].
    by apply Orphaned_settle with t f false.
Qed.

Lemma Orphaned_run cs t t' q : Orphaned t q → run cs t = Ok t' → Orphaned t' q.
Proof.
  revert t. induction cs as [|c cs IH]; intros t Ho; cbn [run].
  - by intros [= <-].
  - destruct (step c t) as [t1|] eqn:Hstep; [cbn|done].
    apply IH. by apply Orphaned_step with c t.
Qed.

Lemma Orphaned_outcome t q : Orphaned t q → outcome t q = Pending.
Proof. intros (p & Hq & Hp & _). unfold outcome. by apply fate_adopted with p. Qed.

Lemma PendingWait_run cs t t' q :
  PendingWait t q → forallb visibilityCall cs = true → run cs t = Ok t' →
  PendingWait t' q.
Proof.
  revert t. induction cs as [|c cs IH]; intros t Hw; cbn [run forallb].
  - by intros _ [= <-].
  - intros [Hc Hcs]%andb_prop. destruct (step c t) as [t1|] eqn:Hstep; [cbn|done].
    apply IH; [|done]. by apply pending_kept with c t.
Qed.

Lemma wait_orphans t q : PendingWait t q → Orphaned (fst (wait t)) q.
Proof.
  intros (_ & Hq & Hp)%PendingWait_stored.
  destruct (wait_stored t) as (Hc & _ & _ & Hlen & Hold & _).
  apply lookup_lt_Some in Hq as Hql. apply lookup_lt_Some in Hp as Hpl.
  exists (S q). rewrite !Hold by done.
  split_and!; [done|done|..]; rewrite Hc, Hlen; intros [= ?]; lia.
Qed.

(** C3: [wait()] is called, then, with calls of [show], [hide] and
    clicks at most in between, [wait()] again, and after more such calls
    [success()] or [failure()].  That call returns and settles the second
    awaitable, with [true] or [false]; the first awaitable, another one
    than the second, is pending before and after it, and stays pending
    through every sequence of calls that follows the second [wait()]. *)
Theorem second_wait_orphans_first t0 cs1 t1 cs2 t2 (b : bool) :
  forallb visibilityCall cs1 = true → run cs1 (fst (wait t0)) = Ok t1 →
  forallb visibilityCall cs2 = true → run cs2 (fst (wait t1)) = Ok t2 →
  snd (wait t0) ≠ snd (wait t1) ∧
  outcome t2 (snd (wait t0)) = Pending ∧
  outcome t2 (snd (wait t1)) = Pending ∧
  (∃ t3, step (if b then CallSuccess else CallFailure) t2 = Ok t3 ∧
     outcome t3 (snd (wait t1)) = Fulfilled b ∧
     outcome t3 (snd (wait t0)) = Pending) ∧
  (∀ cs t', run cs (fst (wait t1)) = Ok t' → outcome t' (snd (wait t0)) = Pending).
Proof.
  intros Hv1 Hr1 Hv2 Hr2.
  pose proof (PendingWait_run cs1 _ t1 _ (pending_wait t0) Hv1 Hr1) as Hw1.
  pose proof (PendingWait_run cs2 _ t2 _ (pending_wait t1) Hv2 Hr2) as Hw2.
  pose proof (wait_orphans t1 _ Hw1) as Ho.
  pose proof (Orphaned_run cs2 _ t2 _ Ho Hr2) as Ho2.
  destruct (PendingWait_stored _ _ Hw2) as (Hc & Ha & Hp).
  split_and!.
  - destruct (PendingWait_stored _ _ Hw1) as (_ & Hq%lookup_lt_Some & _).
    destruct (wait_stored t1) as (_ & _ & _ & Hlen & _). lia.
  - by apply Orphaned_outcome.
  - unfold outcome. by apply fate_adopted with (S (snd (wait t1))).
  - destruct b; cbn [step]; unfold success, failure; rewrite Hc;
      (eexists; split; [done|]); split.
    + by apply settled_outcome with t2.
    + apply Orphaned_outcome. by apply Orphaned_settle with t2 (ResolveOf (S (snd (wait t1)))) true.
    + by apply settled_outcome with t2.
    + apply Orphaned_outcome. by apply Orphaned_settle with t2 (ResolveOf (S (snd (wait t1)))) false.
  - intros cs t' Hrun. apply Orphaned_outcome. by apply Orphaned_run with cs (fst (wait t1)).
Qed.

End orphans.

(** ** No rejection *)

Section rejection.
Implicit Types (t : Template) (ps : list PromiseState) (q p : nat).

Lemma outcome_delivers t q :
  Linked (promises t) → outcome t q = delivers (promises t) q.
Proof.
  intros Hl. unfold outcome, delivers.
  destruct (promises t !! q) as [st|] eqn:Hq.
  - destruct st as [|v| |p]; try by apply fate_direct.
    destruct (Hl q p Hq) as (st & Hp & Hst). rewrite Hp. cbn.
    by apply fate_adopted with p.
  - destruct (length (promises t)); cbn; by rewrite Hq.
Qed.

Lemma wait_lookup t i :
  promises (fst (wait t)) !! i =
    if decide (i < length (promises t)) then promises t !! i
    else if decide (i = length (promises t)) then Some (Adopt (S i))
    else if decide (i = S (length (promises t))) then Some Pending
    else None.
Proof.
  destruct (wait_stored t) as (_ & Ha & Hp & Hlen & Hold & Hl & _).
  rewrite Hlen in Ha, Hp. repeat case_decide; subst; try done.
  - by apply Hold.
  - apply lookup_ge_None. lia.
Qed.

Lemma construct_resolveOnly props kids : ResolveOnly (construct props kids).
Proof. split; cbn; done. Qed.

Lemma settle_resolveOnly t t1 p0 (v : bool) :
  ResolveOnly t →
  confirmation t1 = confirmation t →
  promises t1 = settle p0 (Fulfilled v) (promises t) →
  ResolveOnly t1.
Proof.
  intros [Hs Hr Hl] Hc Hps. split.
  - by rewrite Hc.
  - intros q. rewrite Hps, settle_lookup. case_decide; [done|apply Hr].
  - intros q p. rewrite Hps, !settle_lookup.
    case_decide; [done|]. intros (st & Hp & Hst)%Hl.
    case_decide; eauto.
Qed.

Lemma step_resolveOnly c t t' : ResolveOnly t → step c t = Ok t' → ResolveOnly t'.
Proof.
  intros Ht Hstep. destruct (visibilityCall c) eqn:Hv.
  { destruct (visibility_frame c t t' Hv Hstep) as (_ & Hc & Hps).
    destruct Ht. split; by rewrite ?Hc, ?Hps. }
  destruct c as [m| | | | |on]; try done; cbn [step] in Hstep.
  - assert (t' = fst (wait t)) as -> by congruence.
    destruct Ht as [Hs Hr Hl]. split.
    + by destruct (wait_stored t) as (-> & _).
    + intros q. rewrite wait_lookup. repeat case_decide; done.
    + intros q p. rewrite !wait_lookup. repeat case_decide; subst; try done.
      all: first
        [ apply Hl
        | intros [= ?]; lia
        | intros _; by exists Pending
        | intros (st & Hp%lookup_lt_Some & _)%Hl; lia ].
  - unfold success in Hstep. destruct (confirmation t) as [[p0|p0]|] eqn:Hc;
      injection Hstep as <-; try done.
    + by apply settle_resolveOnly with t p0 true.
    + by destruct (stored_resolves t Ht p0).
  - unfold failure in Hstep. destruct (confirmation t) as [[p0|p0]|] eqn:Hc;
      injection Hstep as <-; try done.
    + by apply settle_resolveOnly with t p0 false.
    + by destruct (stored_resolves t Ht p0).
Qed.

Lemma Reachable_resolveOnly t : Reachable t → ResolveOnly t.
Proof.
  induction 1; [apply construct_resolveOnly|]. by eapply step_resolveOnly.
Qed.

Lemma run_resolveOnly cs t t' : ResolveOnly t → run cs t = Ok t' → ResolveOnly t'.
Proof.
  revert t. induction cs as [|c cs IH]; intros t Ht; cbn [run].
  - by intros [= <-].
  - destruct (step c t) as [t1|] eqn:Hstep; [cbn|done].
    apply IH. by apply step_resolveOnly with c t.
Qed.

Lemma resolveOnly_outcome t q :
  ResolveOnly t → outcome t q = Pending ∨ ∃ b, outcome t q = Fulfilled b.
Proof.
  intros [Hs Hr Hl]. rewrite outcome_delivers by done. unfold delivers.
  destruct (promises t !! q) as [[|v| |p]|] eqn:Hq; eauto.
  - by destruct (Hr q).
  - destruct (Hl q p Hq) as (st & Hp & Hst). rewrite Hp. cbn.
    destruct st as [|v| |p']; eauto.
    + by destruct (Hr p).
    + by destruct (Hst p').
Qed.

Lemma settle_delivers ps p0 (v b : bool) q :
  delivers ps q = Pending →
  delivers (settle p0 (Fulfilled v) ps) q = Fulfilled b →
  b = v.
Proof.
  unfold delivers. rewrite settle_lookup.
  destruct (ps !! q) as [st|] eqn:Hq.
  - case_decide as Hd; [congruence|].
    destruct st as [|v'| |p]; try congruence.
    rewrite settle_lookup. case_decide as Hp; [|congruence].
    destruct Hp as [_ ->]. cbn. congruence.
  - rewrite decide_False by (by intros [_ ?]). congruence.
Qed.

Lemma wait_delivers t q b :
  Linked (promises t) →
  delivers (promises t) q = Pending →
  delivers (promises (fst (wait t))) q ≠ Fulfilled b.
Proof.
  intros Hl. unfold delivers. rewrite wait_lookup.
  repeat case_decide; subst; try done.
  - destruct (promises t !! q) as [[|v| |p]|] eqn:Hq; try congruence.
    destruct (Hl q p Hq) as (st & Hp & _). rewrite wait_lookup.
    apply lookup_lt_Some in Hp as Hlt. rewrite decide_True by done. congruence.
  - rewrite wait_lookup. repeat case_decide; try lia. done.
Qed.

(** Only [success()] makes a pending awaitable deliver [true], and only
    [failure()] makes it deliver [false]. *)
Lemma outcome_step c t t' q (b : bool) :
  ResolveOnly t → step c t = Ok t' →
  outcome t q = Pending → outcome t' q = Fulfilled b →
  c = if b then CallSuccess else CallFailure.
Proof.
  intros Ht Hstep. pose proof (step_resolveOnly c t t' Ht Hstep) as Ht'.
  rewrite !outcome_delivers by (by destruct Ht, Ht').
  destruct (visibilityCall c) eqn:Hv.
  { destruct (visibility_frame c t t' Hv Hstep) as (_ & _ & ->). congruence. }
  destruct c as [m| | | | |on]; try done; cbn [step] in Hstep.
  - assert (t' = fst (wait t)) as -> by congruence. intros Hp Hf.
    by destruct (wait_delivers t q b (promises_linked t Ht) Hp).
  - unfold success in Hstep. destruct (confirmation t) as [[p0|p0]|] eqn:Hc;
      injection Hstep as <-; cbn; try congruence.
    + intros Hp Hf. by rewrite (settle_delivers _ _ _ _ _ Hp Hf).
    + by destruct (stored_resolves t Ht p0).
  - unfold failure in Hstep. destruct (confirmation t) as [[p0|p0]|] eqn:Hc;
      injection Hstep as <-; cbn; try congruence.
    + intros Hp Hf. by rewrite (settle_delivers _ _ _ _ _ Hp Hf).
    + by destruct (stored_resolves t Ht p0).
Qed.

(** C10: [wait()] is called in a state a dialog can be in, and any calls
    follow.  Then the stored settle-function is not a rejecting one (so
    no method has one to call), no promise is rejected, and the awaitable
    of that [wait()] is pending or delivers a boolean; a call after which
    it delivers [true] for the first time is [success()], one after which
    it delivers [false] is [failure()]. *)
Theorem wait_never_rejects t cs t' :
  Reachable t →
  run cs (fst (wait t)) = Ok t' →
  (∀ p, confirmation t' ≠ Some (RejectOf p)) ∧
  (∀ q, promises t' !! q ≠ Some Rejected) ∧
  outcome t' (snd (wait t)) ≠ Rejected ∧
  (outcome t' (snd (wait t)) = Pending ∨
   ∃ b, outcome t' (snd (wait t)) = Fulfilled b) ∧
  (∀ c t'' (b : bool),
     step c t' = Ok t'' →
     outcome t' (snd (wait t)) = Pending →
     outcome t'' (snd (wait t)) = Fulfilled b →
     c = if b then CallSuccess else CallFailure).
Proof.
  intros Ht Hrun.
  assert (ResolveOnly t') as Ht'.
  { apply run_resolveOnly with cs (fst (wait t)); [|done].
    apply step_resolveOnly with CallWait t; [|done].
    by apply Reachable_resolveOnly. }
  pose proof (resolveOnly_outcome t' (snd (wait t)) Ht') as Ho.
  split_and!; try done.
  - by destruct Ht'.
  - by destruct Ht'.
  - destruct Ho as [->|[b ->]]; done.
  - intros c t'' b. by apply outcome_step.
Qed.

End rejection.

(** ** The claims that fail, at concrete states *)

Section concrete.

(** C1 as stated fails: after [show(true)], [show(false)] on a dialog
    whose [modal] property is not set returns with the backdrop still in
    the render tree, though neither the argument nor the property is
    truthy. *)
Lemma show_false_keeps_backdrop :
  Reachable (after [CallShow (Some true)] plain) ∧
  show (Some false) (after [CallShow (Some true)] plain)
    = Ok (after [CallShow (Some true); CallShow (Some false)] plain) ∧
  inRenderTree
    (tree (after [CallShow (Some true); CallShow (Some false)] plain)) ModalSlot ∧
  children (tree (after [CallShow (Some true); CallShow (Some false)] plain)) Elements
    = [Styles; ModalSlot; Wrapper] ∧
  ¬ (truthy (Some false) = true ∨
     truthy (modal (properties (after [CallShow (Some true)] plain))) = true).
Proof.
  split_and!.
  - apply reach_step with (CallShow (Some true)) plain; [apply reach_construct|].
    vm_compute. reflexivity.
  - vm_compute. reflexivity.
  - apply render_child. apply (bool_decide_unpack _). vm_compute. exact I.
  - vm_compute. reflexivity.
  - intros [H|H]; vm_compute in H; discriminate H.
Qed.

(** C4 as stated fails: right after [wait()] was settled by [success()]
    no settle-function is pending, yet [failure()] appends a [failure]
    notification. *)
Lemma failure_after_success_notifies :
  noPendingSettle (after [CallWait; CallSuccess] plain) ∧
  outcome (after [CallWait; CallSuccess] plain) (snd (wait plain)) = Fulfilled true ∧
  failure (after [CallWait; CallSuccess] plain)
    = Ok (after [CallWait; CallSuccess; CallFailure] plain) ∧
  delivered <$> dispatched (after [CallWait; CallSuccess] plain)
    = [ {| type := "success"; bubbles := true; cancelable := false;
           target := Some Skeleton |} ] ∧
  delivered <$> dispatched (after [CallWait; CallSuccess; CallFailure] plain)
    = [ {| type := "success"; bubbles := true; cancelable := false;
           target := Some Skeleton |};
        {| type := "failure"; bubbles := true; cancelable := false;
           target := Some Skeleton |} ].
Proof.
  split_and!; try (vm_compute; reflexivity).
  vm_compute. discriminate.
Qed.

(** C9 as stated fails: the [success] notification of a dialog that was
    waited for has the skeleton as its target, which is not the dialog
    body; so has the [failure] notification. *)
Lemma success_target_is_not_the_body :
  success (fst (wait plain)) = Ok (after [CallWait; CallSuccess] plain) ∧
  failure (fst (wait plain)) = Ok (after [CallWait; CallFailure] plain) ∧
  target ∘ delivered <$> dispatched (after [CallWait; CallSuccess] plain)
    = [Some Skeleton] ∧
  target ∘ delivered <$> dispatched (after [CallWait; CallFailure] plain)
    = [Some Skeleton] ∧
  Some Skeleton ≠ Some Dialog.
Proof. split_and!; try (vm_compute; reflexivity). discriminate. Qed.

End concrete.

(** ** The theorems at concrete states *)

Section witnesses.

Lemma show_backdrop_when_modal_or_present_witness :
  Reachable plain ∧
  ∃ t', show (Some true) plain = Ok t' ∧
    (inRenderTree (tree t') ModalSlot ↔
       truthy (Some true) = true ∨ truthy (modal (properties plain)) = true ∨
       inRenderTree (tree plain) ModalSlot) ∧
    (truthy (Some true) = false → truthy (modal (properties plain)) = false →
       children (tree t') Elements = children (tree plain) Elements) ∧
    (inRenderTree (tree t') ModalSlot →
       immediatelyBefore (tree t') Elements ModalSlot Wrapper) ∧
    children (tree t') Wrapper = [Dialog] ∧
    inRenderTree (tree t') Dialog.
Proof.
  split; [exact (reach_construct _ _)|].
  exact (show_backdrop_when_modal_or_present (Some true) plain (reach_construct _ _)).
Defined.

Lemma second_wait_orphans_first_witness :
  forallb visibilityCall [CallShow None] = true ∧
  run [CallShow None] (fst (wait plain)) = Ok (after [CallWait; CallShow None] plain) ∧
  forallb visibilityCall [CallHide] = true ∧
  run [CallHide] (fst (wait (after [CallWait; CallShow None] plain)))
    = Ok (after [CallWait; CallShow None; CallWait; CallHide] plain) ∧
  (snd (wait plain) ≠ snd (wait (after [CallWait; CallShow None] plain)) ∧
   outcome (after [CallWait; CallShow None; CallWait; CallHide] plain)
     (snd (wait plain)) = Pending ∧
   outcome (after [CallWait; CallShow None; CallWait; CallHide] plain)
     (snd (wait (after [CallWait; CallShow None] plain))) = Pending ∧
   (∃ t3, step (if true then CallSuccess else CallFailure)
            (after [CallWait; CallShow None; CallWait; CallHide] plain) = Ok t3 ∧
      outcome t3 (snd (wait (after [CallWait; CallShow None] plain))) = Fulfilled true ∧
      outcome t3 (snd (wait plain)) = Pending) ∧
   (∀ cs t', run cs (fst (wait (after [CallWait; CallShow None] plain))) = Ok t' →
      outcome t' (snd (wait plain)) = Pending)).
Proof.
  assert (run [CallShow None] (fst (wait plain))
            = Ok (after [CallWait; CallShow None] plain)) as H1
    by (vm_compute; reflexivity).
  assert (run [CallHide] (fst (wait (after [CallWait; CallShow None] plain)))
            = Ok (after [CallWait; CallShow None; CallWait; CallHide] plain)) as H2
    by (vm_compute; reflexivity).
  exact (conj eq_refl (conj H1 (conj eq_refl (conj H2
    (second_wait_orphans_first plain [CallShow None] _ [CallHide] _ true
       eq_refl H1 eq_refl H2))))).
Defined.

Lemma success_failure_without_pending_settle_witness :
  noPendingSettle (after [CallWait; CallSuccess] plain) ∧
  ∃ t1 t2, success (after [CallWait; CallSuccess] plain) = Ok t1 ∧
    failure (after [CallWait; CallSuccess] plain) = Ok t2 ∧
    promises t1 = promises (after [CallWait; CallSuccess] plain) ∧
    promises t2 = promises (after [CallWait; CallSuccess] plain) ∧
    (∀ q, outcome t1 q = outcome (after [CallWait; CallSuccess] plain) q ∧
          outcome t2 q = outcome (after [CallWait; CallSuccess] plain) q) ∧
    (confirmation (after [CallWait; CallSuccess] plain) = None →
     t1 = after [CallWait; CallSuccess] plain ∧
     t2 = after [CallWait; CallSuccess] plain).
Proof.
  assert (noPendingSettle (after [CallWait; CallSuccess] plain)) as H
    by (vm_compute; discriminate).
  split; [exact H|].
  exact (success_failure_without_pending_settle _ H).
Defined.

Lemma success_failure_settle_pending_wait_witness :
  PendingWait (fst (wait plain)) (snd (wait plain)) ∧
  outcome (fst (wait plain)) (snd (wait plain)) = Pending ∧
  (∃ t1, success (fst (wait plain)) = Ok t1 ∧
         outcome t1 (snd (wait plain)) = Fulfilled true ∧
         dispatched t1 = dispatched (fst (wait plain)) ++ [notification "success" t1]) ∧
  (∃ t2, failure (fst (wait plain)) = Ok t2 ∧
         outcome t2 (snd (wait plain)) = Fulfilled false ∧
         dispatched t2 = dispatched (fst (wait plain)) ++ [notification "failure" t2]).
Proof.
  split; [exact (pending_wait plain)|].
  exact (success_failure_settle_pending_wait _ _ (pending_wait plain)).
Defined.

Lemma notification_sees_final_state_witness :
  methodName (CallShow (Some true)) = Some "show"%string ∧
  step (CallShow (Some true)) plain = Ok (after [CallShow (Some true)] plain) ∧
  mutated (CallShow (Some true)) plain (after [CallShow (Some true)] plain) ∧
  ((∃ dl, dispatched (after [CallShow (Some true)] plain) = dispatched plain ++ [dl] ∧
          type (delivered dl) = "show"%string ∧
          seenTree dl = tree (after [CallShow (Some true)] plain) ∧
          seenPromises dl = promises (after [CallShow (Some true)] plain)) ∨
   (dispatched (after [CallShow (Some true)] plain) = dispatched plain ∧
    confirmation plain = None ∧
    (CallShow (Some true) = CallSuccess ∨ CallShow (Some true) = CallFailure))).
Proof.
  assert (step (CallShow (Some true)) plain = Ok (after [CallShow (Some true)] plain))
    as H by (vm_compute; reflexivity).
  exact (conj eq_refl (conj H
    (notification_sees_final_state (CallShow (Some true)) "show" plain _ eq_refl H))).
Defined.

Lemma success_failure_dispatch_on_skeleton_witness :
  confirmation (fst (wait plain)) = Some (ResolveOf 1) ∧
  ∃ t1 t2 d1 d2,
    success (fst (wait plain)) = Ok t1 ∧
    dispatched t1 = dispatched (fst (wait plain)) ++ [d1] ∧
    delivered d1 = {| type := "success"; bubbles := true; cancelable := false;
                      target := Some Skeleton |} ∧
    failure (fst (wait plain)) = Ok t2 ∧
    dispatched t2 = dispatched (fst (wait plain)) ++ [d2] ∧
    delivered d2 = {| type := "failure"; bubbles := true; cancelable := false;
                      target := Some Skeleton |}.
Proof.
  split; [reflexivity|].
  exact (success_failure_dispatch_on_skeleton (fst (wait plain)) (ResolveOf 1) eq_refl).
Defined.

Lemma wait_never_rejects_witness :
  Reachable plain ∧
  run [CallSuccess] (fst (wait plain)) = Ok (after [CallWait; CallSuccess] plain) ∧
  outcome (after [CallWait; CallSuccess] plain) (snd (wait plain)) ≠ Rejected ∧
  (outcome (after [CallWait; CallSuccess] plain) (snd (wait plain)) = Pending ∨
   ∃ b, outcome (after [CallWait; CallSuccess] plain) (snd (wait plain)) = Fulfilled b).
Proof.
  assert (run [CallSuccess] (fst (wait plain))
            = Ok (after [CallWait; CallSuccess] plain)) as H
    by (vm_compute; reflexivity).
  pose proof (wait_never_rejects plain [CallSuccess] _ (reach_construct _ _) H)
    as (_ & _ & Hn & Hb & _).
  exact (conj (reach_construct _ _) (conj H (conj Hn Hb))).
Defined.

End witnesses.

(** * Beyond the claims *)

(** ** How a call changes the state *)

Section calls.
Implicit Types (d : Tree) (n p q : Node) (t : Template) (m : option bool).

Lemma step_properties c t t' : step c t = Ok t' → properties t' = properties t.
Proof.
  destruct (visibilityCall c) eqn:Hv.
  { intros Hstep. by destruct (visibility_frame c t t' Hv Hstep) as (? & _). }
  destruct c as [m| | | | |on]; try done; cbn [step].
  - by intros [= <-].
  - unfold success. destruct (confirmation t); by intros [= <-].
  - unfold failure. destruct (confirmation t); by intros [= <-].
Qed.

Lemma run_properties cs t t' : run cs t = Ok t' → properties t' = properties t.
Proof.
  revert t. induction cs as [|c cs IH]; intros t; cbn [run].
  - by intros [= <-].
  - destruct (step c t) as [t1|] eqn:Hstep; [cbn|done].
    intros Hrun. rewrite (IH _ Hrun). by apply step_properties with c.
Qed.

(** The log grows by the notifications of the call, each taken in the
    state the call returns. *)
Lemma step_log c t t' :
  step c t = Ok t' →
  dispatched t' = dispatched t ++ ((λ name, notification name t') <$> emits c t).
Proof.
  destruct c as [m| | | | |on]; cbn [step emits].
  - by intros (_ & _ & _ & Hd & _)%show_ok.
  - by intros [= <-].
  - intros [= <-]. cbn. by rewrite app_nil_r.
  - unfold success. destruct (confirmation t); intros [= <-]; cbn; [done|].
    by rewrite app_nil_r.
  - unfold failure. destruct (confirmation t); intros [= <-]; cbn; [done|].
    by rewrite app_nil_r.
  - rewrite ignoreHandler_eq. cbn [target clickEvent].
    replace (bool_decide (Some on = Some Dialog)) with (bool_decide (on = Dialog))
      by (apply bool_decide_ext; split; congruence).
    case_match; intros [= <-]; cbn; [done|]. by rewrite app_nil_r.
Qed.

(** A call leaves the tree alone, or is a [show], or takes the body and
    the backdrop out. *)
Lemma step_tree c t t' :
  step c t = Ok t' →
  tree t' = tree t ∨
  (∃ m, c = CallShow m ∧ show m t = Ok t') ∨
  tree t' = remove Dialog (remove ModalSlot (tree t)).
Proof.
  destruct c as [m| | | | |on]; cbn [step].
  - eauto.
  - intros [= <-]. by right; right.
  - intros [= <-]. by left.
  - unfold success. destruct (confirmation t); intros [= <-]; by left.
  - unfold failure. destruct (confirmation t); intros [= <-]; by left.
  - rewrite ignoreHandler_eq. case_match; intros [= <-]; [by right; right|by left].
Qed.

Lemma show_others m t t' :
  Shaped (tree t) → show m t = Ok t' →
  ∀ p, p ≠ Elements → p ≠ Wrapper → children (tree t') p = children (tree t) p.
Proof.
  intros Ht. unfold show. destruct (truthy _).
  - destruct (insertBefore_modal _ Ht) as (d1 & -> & He & Ho). cbn.
    assert (Shaped d1) as H1 by eauto using shaped_modal_in.
    destruct (appendChild_dialog _ H1) as (d2 & -> & Hw & Ho2). cbn.
    intros [= <-] p Hp1 Hp2. cbn. by rewrite Ho2, Ho.
  - cbn. destruct (appendChild_dialog _ Ht) as (d2 & -> & Hw & Ho2). cbn.
    intros [= <-] p Hp1 Hp2. cbn. by rewrite Ho2.
Qed.

Lemma removed_children d :
  Shaped d →
  children (remove Dialog (remove ModalSlot d)) Elements = [Styles; Wrapper] ∧
  children (remove Dialog (remove ModalSlot d)) Wrapper = [] ∧
  (∀ p, p ≠ Elements → p ≠ Wrapper →
     children (remove Dialog (remove ModalSlot d)) p = children d p).
Proof.
  intros Hd. rewrite !children_remove. split_and!.
  - by destruct (shaped_root d Hd) as [-> | ->].
  - by destruct (shaped_wrapper d Hd) as [-> | ->].
  - intros p Hp1 Hp2. rewrite !children_remove.
    rewrite (filter_absent ModalSlot).
    + apply filter_absent. intros Hin. by apply Hp2, (shaped_dialog_parent d Hd).
    + intros Hin. by apply Hp1, (shaped_modal_parent d Hd).
Qed.


End calls.

(** ** The tree through the life of a dialog *)

Section structure.
Implicit Types (d : Tree) (n p q : Node) (t : Template) (m : option bool).

Lemma step_shaped_ok c t t' : Shaped (tree t) → step c t = Ok t' → Shaped (tree t').
Proof.
  intros Ht Hstep. destruct (step_shaped c t Ht) as (t2 & Ht2 & ?). congruence.
Qed.

Lemma step_others c t t' :
  Shaped (tree t) → step c t = Ok t' →
  ∀ p, p ≠ Elements → p ≠ Wrapper → children (tree t') p = children (tree t) p.
Proof.
  intros Ht Hstep p Hp1 Hp2.
  destruct (step_tree c t t' Hstep) as [->|[(m & _ & Hs)| ->]]; [done| |].
  - by apply show_others with m.
  - by apply removed_children.
Qed.

Lemma shaped_dialog_rendered d :
  Shaped d → (inRenderTree d Dialog ↔ children d Wrapper = [Dialog]).
Proof.
  intros Hd. split.
  - intros Hr. apply inRenderTree_attached in Hr as [p Hp].
    pose proof (shaped_dialog_parent d Hd p Hp) as ->.
    destruct (shaped_wrapper d Hd) as [Hw|Hw]; [|done].
    rewrite Hw in Hp. among Hp.
  - intros Hw. apply render_below with Wrapper.
    + apply render_child.
      destruct (shaped_root d Hd) as [-> | ->]; rewrite !elem_of_cons; auto.
    + rewrite Hw. apply list_elem_of_here.
Qed.

Lemma construct_consistent props kids : Consistent (construct props kids).
Proof.
  pose proof (construct_shaped props kids) as Hs.
  assert (children (tree (construct props kids)) Elements = [Styles; Wrapper]) as He.
  { cbn [construct tree]. by rewrite children_insert, decide_True. }
  assert (children (tree (construct props kids)) Wrapper = []) as Hw.
  { cbn [construct tree]. rewrite !children_insert.
    rewrite !decide_False by done. apply children_empty. }
  split; [done| |]; rewrite ?He, ?Hw; done.
Qed.

Lemma step_consistent c t t' : Consistent t → step c t = Ok t' → Consistent t'.
Proof.
  intros [Hs Hb Hm] Hstep.
  pose proof (step_shaped_ok c t t' Hs Hstep) as Hs'.
  pose proof (step_properties c t t' Hstep) as Hp.
  destruct (step_tree c t t' Hstep) as [Ht|[(m & _ & Hshow)|Ht]].
  - split; rewrite ?Ht, ?Hp; done.
  - destruct (show_shaped m t Hs) as (t2 & H2 & _ & He & Hw & _).
    assert (t2 = t') as -> by congruence.
    split; [done|done|]. rewrite Hp. intros Hmodal _.
    by rewrite He, Hmodal, orb_true_r.
  - destruct (removed_children _ Hs) as (He & Hw & _).
    split; [done| |]; rewrite Ht, ?He, ?Hw; done.
Qed.

Lemma Reachable_consistent t : Reachable t → Consistent t.
Proof.
  induction 1; [apply construct_consistent|]. by eapply step_consistent.
Qed.


(** X2: in a state a dialog can be in, no sequence of calls and clicks
    throws: [insertBefore] always finds the wrapper under the shadow root
    and no node is put below itself. *)
Theorem calls_never_throw cs t :
  Reachable t → ∃ t', run cs t = Ok t' ∧ Reachable t'.
Proof. apply Reachable_run. Qed.

(** X3: the tree is built once and keeps its form: under the shadow root
    are the styles, then the backdrop or not, then the wrapper, each
    once; the wrapper holds the body or nothing; the body holds its three
    slots; the backdrop has no parent but the shadow root and the body
    none but the wrapper. *)
Theorem structure_is_kept t :
  Reachable t →
  (children (tree t) Elements = [Styles; Wrapper] ∨
   children (tree t) Elements = [Styles; ModalSlot; Wrapper]) ∧
  (children (tree t) Wrapper = [] ∨ children (tree t) Wrapper = [Dialog]) ∧
  children (tree t) Dialog = [HeaderSlot; ContentSlot; FooterSlot] ∧
  NoDup (children (tree t) Elements) ∧
  inRenderTree (tree t) Styles ∧
  inRenderTree (tree t) Wrapper ∧
  (∀ p, ModalSlot ∈ children (tree t) p → p = Elements) ∧
  (∀ p, Dialog ∈ children (tree t) p → p = Wrapper).
Proof.
  intros Hs%Reachable_shaped. split_and!; try by destruct Hs.
  - destruct (shaped_root _ Hs) as [-> | ->]; by apply (bool_decide_unpack _).
  - apply render_child.
    destruct (shaped_root _ Hs) as [-> | ->]; rewrite !elem_of_cons; auto.
  - apply render_child.
    destruct (shaped_root _ Hs) as [-> | ->]; rewrite !elem_of_cons; auto.
Qed.

(** X4: the backdrop is never shown without the body; and when the
    [modal] property is truthy the body is never shown without the
    backdrop. *)
Theorem backdrop_goes_with_body t :
  Reachable t →
  (inRenderTree (tree t) ModalSlot → inRenderTree (tree t) Dialog) ∧
  (truthy (modal (properties t)) = true →
     (inRenderTree (tree t) Dialog ↔ inRenderTree (tree t) ModalSlot)).
Proof.
  intros [Hs Hb Hm]%Reachable_consistent.
  rewrite shaped_dialog_rendered, shaped_modal_rendered by done.
  split; [done|]. intros Hmodal. split; auto.
Qed.

(** X5: the calls move the body and the backdrop only: whatever is
    called, the children of every node but the shadow root and the
    wrapper stay as they are, the supplied children under the skeleton and
    the slots in the body among them. *)
Theorem calls_move_body_and_backdrop_only cs t t' :
  Reachable t → run cs t = Ok t' →
  (∀ p, p ≠ Elements → p ≠ Wrapper → children (tree t') p = children (tree t) p) ∧
  children (tree t') Skeleton = children (tree t) Skeleton ∧
  properties t' = properties t.
Proof.
  intros Hs%Reachable_shaped Hrun.
  assert (∀ p, p ≠ Elements → p ≠ Wrapper →
               children (tree t') p = children (tree t) p) as Ho.
  { revert t Hs Hrun. induction cs as [|c cs IH]; intros t Hs; cbn [run].
    - by intros [= <-].
    - destruct (step c t) as [t1|] eqn:Hstep; [cbn|done].
      intros Hrun p Hp1 Hp2.
      rewrite (IH t1 (step_shaped_ok c t t1 Hs Hstep) Hrun p Hp1 Hp2).
      by apply step_others with c. }
  split_and!; [done|by apply Ho|by apply run_properties with cs].
Qed.

(** X6: [show(m)] on a shown dialog does not move anything once more: a
    second [show(m)] leaves the children of every node as the first left
    them (one body, one backdrop at most), and emits a second [show]
    notification. *)
Theorem show_twice_same_tree m t :
  Reachable t →
  ∃ t1 t2, show m t = Ok t1 ∧ show m t1 = Ok t2 ∧
    (∀ p, children (tree t2) p = children (tree t1) p) ∧
    dispatched t2 = dispatched t ++ [notification "show" t1; notification "show" t2].
Proof.
  intros Hs%Reachable_shaped.
  destruct (show_shaped m t Hs) as (t1 & H1 & Hs1 & He1 & Hw1 & Hp1 & _ & _ & Hd1).
  destruct (show_shaped m t1 Hs1) as (t2 & H2 & Hs2 & He2 & Hw2 & _ & _ & _ & Hd2).
  exists t1, t2. split_and!; try done.
  - intros p. destruct (decide (p = Elements)) as [->|Hp].
    { rewrite He2, Hp1, He1. by destruct (truthy m || truthy (modal (properties t))). }
    destruct (decide (p = Wrapper)) as [->|Hp'].
    { by rewrite Hw2, Hw1. }
    by apply show_others with m.
  - by rewrite Hd2, Hd1, <-app_assoc.
Qed.

(** X7: [hide()] after [show(m)] leaves the tree as [hide()] alone does,
    so on a hidden dialog [show(m)] then [hide()] puts every node back
    where it was; the two calls emit a [show] and then a [hide]
    notification. *)
Theorem show_then_hide_restores m t :
  Reachable t →
  ∃ t1 t2, show m t = Ok t1 ∧ hide t1 = Ok t2 ∧
    hidden (tree t2) ∧
    (∀ p, children (tree t2) p
          = children (remove Dialog (remove ModalSlot (tree t))) p) ∧
    (hidden (tree t) → ∀ p, children (tree t2) p = children (tree t) p) ∧
    dispatched t2 = dispatched t ++ [notification "show" t1; notification "hide" t2].
Proof.
  intros Hs%Reachable_shaped.
  destruct (show_shaped m t Hs) as (t1 & H1 & Hs1 & _ & _ & _ & _ & _ & Hd1).
  destruct (hide_eq t1) as (t2 & H2 & Ht2 & _ & _ & _ & Hd2).
  destruct (removed_children _ Hs) as (He & Hw & Ho).
  destruct (removed_children _ Hs1) as (He1 & Hw1 & Ho1).
  assert (∀ p, children (tree t2) p
               = children (remove Dialog (remove ModalSlot (tree t))) p) as Hsame.
  { intros p. rewrite Ht2.
    destruct (decide (p = Elements)) as [->|Hp]; [by rewrite He, He1|].
    destruct (decide (p = Wrapper)) as [->|Hp']; [by rewrite Hw, Hw1|].
    rewrite Ho, Ho1 by done. by apply show_others with m. }
  exists t1, t2. split_and!; try done.
  - rewrite Ht2. split; [apply remove_detaches|apply remove_keeps_detached, remove_detaches].
  - intros [Hb Hm] p. rewrite Hsame.
    by rewrite (remove_absent ModalSlot), (remove_absent Dialog).
  - by rewrite Hd2, Hd1, <-app_assoc.
Qed.

End structure.

(** ** The log of notifications *)

(** The rest of a run after a call that returned. *)
Ltac bound := unfold mbind, Result_bind; cbv beta iota.

Section log.
Implicit Types (t : Template) (log : list Delivery) (name : string).

Lemma countType_app name log1 log2 :
  countType name (log1 ++ log2) = countType name log1 + countType name log2.
Proof. unfold countType. by rewrite filter_app, length_app. Qed.

Lemma countType_notifications name t (names : list string) :
  countType name ((λ n, notification n t) <$> names)
  = length (filter (λ n, n = name) names).
Proof.
  unfold countType. induction names as [|n names IH]; [done|].
  rewrite fmap_cons, !filter_cons. cbn [notification delivered type].
  case_decide; cbn [length]; by rewrite IH.
Qed.

Lemma step_count name c t t' :
  step c t = Ok t' →
  countType name (dispatched t')
  = countType name (dispatched t) + length (filter (λ n, n = name) (emits c t)).
Proof.
  intros Hstep. by rewrite (step_log c t t' Hstep), countType_app, countType_notifications.
Qed.

Lemma emits_show c t :
  length (filter (λ n, n = "show"%string) (emits c t)) = if shows c then 1 else 0.
Proof. destruct c; cbn [emits shows]; repeat case_match; done. Qed.

Lemma emits_hide c t :
  length (filter (λ n, n = "hide"%string) (emits c t))
  = if hides (properties t) c then 1 else 0.
Proof.
  destruct c; cbn [emits hides]; try done; repeat case_match; try done; congruence.
Qed.

Lemma emits_success c t :
  length (filter (λ n, n = "success"%string) (emits c t))
  = if succeeds c then (if confirmation t is Some _ then 1 else 0) else 0.
Proof. destruct c; cbn [emits succeeds]; repeat case_match; done. Qed.

Lemma emits_failure c t :
  length (filter (λ n, n = "failure"%string) (emits c t))
  = if fails c then (if confirmation t is Some _ then 1 else 0) else 0.
Proof. destruct c; cbn [emits fails]; repeat case_match; done. Qed.

Lemma emits_names c t name :
  name ∈ emits c t → name ∈ ["show"; "hide"; "success"; "failure"]%string.
Proof.
  destruct c; cbn [emits]; repeat case_match;
    rewrite ?elem_of_cons, ?elem_of_nil; intuition.
Qed.

Lemma length_filter_cons (f : Call → bool) c cs :
  length (filter (λ x, f x) (c :: cs))
  = (if f c then 1 else 0) + length (filter (λ x, f x) cs).
Proof. rewrite filter_cons. destruct (f c); by cbn. Qed.

(** X8: over any sequence of calls that returns, the log gains one [show]
    notification for each [show] call, and one [hide] notification for
    each [hide] call and each click on the dialog body made while
    [canIgnore] is truthy; nothing else emits either of the two. *)
Theorem show_hide_notification_counts cs t t' :
  run cs t = Ok t' →
  countType "show" (dispatched t')
    = countType "show" (dispatched t) + length (filter (λ c, shows c) cs) ∧
  countType "hide" (dispatched t')
    = countType "hide" (dispatched t)
      + length (filter (λ c, hides (properties t) c) cs).
Proof.
  revert t. induction cs as [|c cs IH]; intros t; cbn [run].
  - intros [= <-]. rewrite !filter_nil. cbn. lia.
  - destruct (step c t) as [t1|] eqn:Hstep; [bound|done].
    intros Hrun. destruct (IH t1 Hrun) as [Hs Hh].
    rewrite (step_properties c t t1 Hstep) in Hh.
    rewrite Hs, Hh, (length_filter_cons shows), (length_filter_cons (hides (properties t))).
    rewrite (step_count "show" c t t1 Hstep), (step_count "hide" c t t1 Hstep).
    rewrite emits_show, emits_hide. lia.
Qed.

(** X9: every notification a dialog has ever dispatched went out on its
    [element], the skeleton, bubbling and not cancelable, under one of
    the names show, hide, success and failure. *)
Theorem notifications_are_well_formed t :
  Reachable t → Forall (wellFormed t) (dispatched t).
Proof.
  induction 1 as [props kids|c t t' _ IH Hstep]; [by apply Forall_nil|].
  rewrite (step_log c t t' Hstep). apply Forall_app. split; [done|].
  apply Forall_fmap, Forall_forall. intros name Hname.
  split_and!; try done. by apply emits_names with c t.
Qed.

End log.

(** ** Awaitables through the life of a dialog *)

Section awaitables.
Implicit Types (t : Template) (ps : list PromiseState) (q p : nat).




Lemma call_lookup_kept (f : Callable) v ps i st :
  ps !! i = Some st → st ≠ Pending → call f v ps !! i = Some st.
Proof.
  intros Hi Hst. destruct f as [p0|p0]; cbn; rewrite settle_lookup;
    (rewrite decide_False; [done|]); intros [_ ?]; congruence.
Qed.

Lemma Settled_step c t t' q b : Settled t q b → step c t = Ok t' → Settled t' q b.
Proof.
  intros (p & Hq & Hp) Hstep. exists p.
  destruct (visibilityCall c) eqn:Hv.
  { by destruct (visibility_frame c t t' Hv Hstep) as (_ & _ & ->). }
  destruct c as [m| | | | |on]; try done; cbn [step] in Hstep.
  - assert (t' = fst (wait t)) as -> by congruence.
    destruct (wait_stored t) as (_ & _ & _ & _ & Hold & _).
    apply lookup_lt_Some in Hq as Hql. apply lookup_lt_Some in Hp as Hpl.
    by rewrite !Hold.
  - unfold success in Hstep. destruct (confirmation t) as [f|];
      injection Hstep as <-; [cbn|done].
    split; by apply call_lookup_kept.
  - unfold failure in Hstep. destruct (confirmation t) as [f|];
      injection Hstep as <-; [cbn|done].
    split; by apply call_lookup_kept.
Qed.

Lemma Settled_run cs t t' q b : Settled t q b → run cs t = Ok t' → Settled t' q b.
Proof.
  revert t. induction cs as [|c cs IH]; intros t Hs; cbn [run].
  - by intros [= <-].
  - destruct (step c t) as [t1|] eqn:Hstep; [bound|done].
    apply IH. by apply Settled_step with c t.
Qed.

Lemma Settled_outcome t q b : Settled t q b → outcome t q = Fulfilled b.
Proof. intros (p & Hq & Hp). unfold outcome. by apply fate_adopted with p. Qed.

Lemma step_stored c t t' :
  step c t = Ok t' → is_Some (confirmation t) → is_Some (confirmation t').
Proof.
  destruct (visibilityCall c) eqn:Hv.
  { intros Hstep. by destruct (visibility_frame c t t' Hv Hstep) as (_ & -> & _). }
  destruct c as [m| | | | |on]; try done; cbn [step].
  - intros [= <-] _. by eexists.
  - unfold success. destruct (confirmation t) eqn:Hc; intros [= <-]; cbn; by rewrite Hc.
  - unfold failure. destruct (confirmation t) eqn:Hc; intros [= <-]; cbn; by rewrite Hc.
Qed.

Lemma step_unstored c t t' :
  step c t = Ok t' → confirmation t = None → waits c = false →
  confirmation t' = None ∧ promises t' = promises t.
Proof.
  destruct (visibilityCall c) eqn:Hv.
  { intros Hstep. destruct (visibility_frame c t t' Hv Hstep) as (_ & -> & ->). done. }
  destruct c as [m| | | | |on]; try done; cbn [step].
  - unfold success. intros Hstep Hc. rewrite Hc in Hstep. by injection Hstep as <-.
  - unfold failure. intros Hstep Hc. rewrite Hc in Hstep. by injection Hstep as <-.
Qed.

(** X10: [wait()] shows nothing and emits nothing, and in a state a
    dialog can be in it settles nothing: the awaitable it returns is
    pending, and every other awaitable delivers what it delivered
    before. *)
Theorem wait_is_silent t :
  Reachable t →
  tree (fst (wait t)) = tree t ∧
  dispatched (fst (wait t)) = dispatched t ∧
  properties (fst (wait t)) = properties t ∧
  outcome (fst (wait t)) (snd (wait t)) = Pending ∧
  (∀ q, outcome (fst (wait t)) q = outcome t q).
Proof.
  intros Hr%Reachable_resolveOnly.
  assert (ResolveOnly (fst (wait t))) as Hr'
    by (by apply step_resolveOnly with CallWait t).
  destruct (wait_stored t) as (_ & Ha & Hp & Hlen & _ & _ & Ht & Hd & Hprops).
  split_and!; try done.
  - unfold outcome. by apply fate_adopted with (S (snd (wait t))).
  - intros q. rewrite !outcome_delivers by (by destruct Hr, Hr').
    unfold delivers. rewrite wait_lookup.
    destruct (decide (q < length (promises t))) as [Hq|Hq].
    + destruct (promises t !! q) as [[|v| |p]|] eqn:Hlook; try done.
      destruct (promises_linked t Hr q p Hlook) as (st & Hp' & _).
      apply lookup_lt_Some in Hp' as Hpl.
      by rewrite wait_lookup, decide_True.
    + rewrite (lookup_ge_None_2 (promises t) q) by lia.
      repeat case_decide; try done.
      rewrite wait_lookup. repeat case_decide; try lia. done.
Qed.

(** X11: showing and confirming do not mix: calls of [show], [hide] and
    clicks leave the stored settle-function and every promise as they
    are, and calls of [wait], [success] and [failure] leave the tree as
    it is, so confirming a dialog never hides it. *)
Theorem visibility_and_confirmation_do_not_mix cs t t' :
  run cs t = Ok t' →
  (forallb visibilityCall cs = true →
     confirmation t' = confirmation t ∧ promises t' = promises t ∧
     (∀ q, outcome t' q = outcome t q)) ∧
  (forallb (λ c, negb (visibilityCall c)) cs = true →
     tree t' = tree t ∧
     (inRenderTree (tree t') Dialog ↔ inRenderTree (tree t) Dialog) ∧
     countType "show" (dispatched t') = countType "show" (dispatched t) ∧
     countType "hide" (dispatched t') = countType "hide" (dispatched t)).
Proof.
  revert t. induction cs as [|c cs IH]; intros t; cbn [run forallb].
  - intros [= <-]. done.
  - destruct (step c t) as [t1|] eqn:Hstep; [bound|done].
    intros Hrun. destruct (IH t1 Hrun) as [Hv Hc]. split.
    + intros [Hvc Hvs]%andb_prop.
      destruct (visibility_frame c t t1 Hvc Hstep) as (_ & Hc1 & Hp1).
      destruct (Hv Hvs) as (Hc2 & Hp2 & Ho). split_and!; try congruence.
      intros q. rewrite Ho. by apply outcome_promises.
    + intros [Hnc Hns]%andb_prop. destruct (Hc Hns) as (Ht & Hr & Hs & Hh).
      assert (tree t1 = tree t) as Ht1.
      { destruct c; try done; cbn [step] in Hstep.
        - by injection Hstep as <-.
        - unfold success in Hstep. destruct (confirmation t); by injection Hstep as <-.
        - unfold failure in Hstep. destruct (confirmation t); by injection Hstep as <-. }
      rewrite Ht, Hs, Hh, Ht1.
      rewrite (step_count "show" c t t1 Hstep), (step_count "hide" c t t1 Hstep).
      rewrite emits_show, emits_hide.
      destruct c; try done; cbn; split_and!; try done; lia.
Qed.

(** X12: an awaitable is settled once.  After [success()] on a pending
    [wait()] its awaitable delivers [true] whatever is called later,
    [failure()] and further [wait()] calls among it; after [failure()] it
    delivers [false] in the same way. *)
Theorem settled_awaitable_keeps_its_value t q (b : bool) :
  PendingWait t q →
  ∃ t1, step (if b then CallSuccess else CallFailure) t = Ok t1 ∧
    ∀ cs t2, run cs t1 = Ok t2 → outcome t2 q = Fulfilled b.
Proof.
  intros (Hc & Ha & Hp)%PendingWait_stored.
  apply lookup_lt_Some in Hp as Hlt.
  assert (∀ t1, promises t1 = <[S q := Fulfilled b]> (promises t) → Settled t1 q b) as Hs.
  { intros t1 Hps. exists (S q). rewrite Hps. split.
    - by rewrite list_lookup_insert_ne by lia.
    - by apply list_lookup_insert_eq. }
  destruct b; cbn [step]; unfold success, failure; rewrite Hc;
    (eexists; split; [done|]); intros cs t2 Hrun;
    apply Settled_outcome; (eapply Settled_run; [|done]);
    apply Hs; cbn; unfold settle; by rewrite Hp.
Qed.


(** X14: the stored settle-function is never cleared.  Once one is
    stored, one is stored after every later call, and each [success()]
    emits a [success] notification and each [failure()] a [failure]
    notification, whether a [wait()] is pending or not.  While none is
    stored and [wait()] is not called, none gets stored, no promise
    changes and neither notification is emitted. *)
Theorem settle_function_stays_stored cs t t' :
  run cs t = Ok t' →
  (is_Some (confirmation t) →
     is_Some (confirmation t') ∧
     countType "success" (dispatched t')
       = countType "success" (dispatched t) + length (filter (λ c, succeeds c) cs) ∧
     countType "failure" (dispatched t')
       = countType "failure" (dispatched t) + length (filter (λ c, fails c) cs)) ∧
  (confirmation t = None → forallb (λ c, negb (waits c)) cs = true →
     confirmation t' = None ∧ promises t' = promises t ∧
     countType "success" (dispatched t') = countType "success" (dispatched t) ∧
     countType "failure" (dispatched t') = countType "failure" (dispatched t)).
Proof.
  revert t. induction cs as [|c cs IH]; intros t; cbn [run forallb].
  - intros [= <-]. rewrite !filter_nil. cbn. split; intros; split_and!; try done; lia.
  - destruct (step c t) as [t1|] eqn:Hstep; [bound|done].
    intros Hrun. destruct (IH t1 Hrun) as [Hstored Hnone].
    pose proof (step_count "success" c t t1 Hstep) as Hs.
    pose proof (step_count "failure" c t t1 Hstep) as Hf.
    rewrite emits_success in Hs. rewrite emits_failure in Hf. split.
    + intros Hc. destruct (Hstored (step_stored c t t1 Hstep Hc)) as (Hc' & Hs' & Hf').
      rewrite Hs', Hf', Hs, Hf, (length_filter_cons succeeds), (length_filter_cons fails).
      destruct Hc as [f Hc]. rewrite Hc. split_and!; [done| |].
      * destruct (succeeds c); lia.
      * destruct (fails c); lia.
    + intros Hc [Hw Hws]%andb_prop. apply negb_true_iff in Hw.
      destruct (step_unstored c t t1 Hstep Hc Hw) as (Hc1 & Hp1).
      destruct (Hnone Hc1 Hws) as (Hc' & Hp' & Hs' & Hf').
      rewrite Hs', Hf', Hs, Hf, Hc. split_and!; try congruence.
      * destruct (succeeds c); lia.
      * destruct (fails c); lia.
Qed.

End awaitables.

(** ** These theorems at concrete states *)

Section instances.

Lemma shown_modalDialog_reachable : Reachable (after [CallShow None] modalDialog).
Proof.
  apply reach_step with (CallShow None) modalDialog; [apply reach_construct|].
  vm_compute. reflexivity.
Qed.

Lemma calls_never_throw_witness :
  Reachable modalDialog ∧
  ∃ t', run [CallShow None; Click Dialog; CallWait; CallSuccess] modalDialog = Ok t' ∧
        Reachable t'.
Proof.
  exact (conj (reach_construct _ _)
           (calls_never_throw [CallShow None; Click Dialog; CallWait; CallSuccess]
              modalDialog (reach_construct _ _))).
Defined.

Lemma structure_is_kept_witness :
  Reachable (after [CallShow None] modalDialog) ∧
  children (tree (after [CallShow None] modalDialog)) Dialog
    = [HeaderSlot; ContentSlot; FooterSlot] ∧
  NoDup (children (tree (after [CallShow None] modalDialog)) Elements) ∧
  inRenderTree (tree (after [CallShow None] modalDialog)) Wrapper.
Proof.
  pose proof (structure_is_kept _ shown_modalDialog_reachable)
    as (_ & _ & Hd & Hn & _ & Hw & _).
  exact (conj shown_modalDialog_reachable (conj Hd (conj Hn Hw))).
Defined.

Lemma backdrop_goes_with_body_witness :
  Reachable (after [CallShow None] modalDialog) ∧
  truthy (modal (properties (after [CallShow None] modalDialog))) = true ∧
  (inRenderTree (tree (after [CallShow None] modalDialog)) ModalSlot →
   inRenderTree (tree (after [CallShow None] modalDialog)) Dialog) ∧
  (inRenderTree (tree (after [CallShow None] modalDialog)) Dialog ↔
   inRenderTree (tree (after [CallShow None] modalDialog)) ModalSlot).
Proof.
  pose proof (backdrop_goes_with_body _ shown_modalDialog_reachable) as [Hb Hm].
  exact (conj shown_modalDialog_reachable (conj eq_refl (conj Hb (Hm eq_refl)))).
Defined.

Lemma calls_move_body_and_backdrop_only_witness :
  Reachable modalDialog ∧
  run [CallShow None; CallWait; Click Dialog] modalDialog
    = Ok (after [CallShow None; CallWait; Click Dialog] modalDialog) ∧
  (∀ p, p ≠ Elements → p ≠ Wrapper →
     children (tree (after [CallShow None; CallWait; Click Dialog] modalDialog)) p
     = children (tree modalDialog) p) ∧
  children (tree (after [CallShow None; CallWait; Click Dialog] modalDialog)) Skeleton
    = children (tree modalDialog) Skeleton ∧
  properties (after [CallShow None; CallWait; Click Dialog] modalDialog)
    = properties modalDialog.
Proof.
  assert (run [CallShow None; CallWait; Click Dialog] modalDialog
            = Ok (after [CallShow None; CallWait; Click Dialog] modalDialog)) as H
    by (vm_compute; reflexivity).
  exact (conj (reach_construct _ _) (conj H
    (calls_move_body_and_backdrop_only _ modalDialog _ (reach_construct _ _) H))).
Defined.

Lemma show_twice_same_tree_witness :
  Reachable plain ∧
  ∃ t1 t2, show (Some true) plain = Ok t1 ∧ show (Some true) t1 = Ok t2 ∧
    (∀ p, children (tree t2) p = children (tree t1) p) ∧
    dispatched t2
      = dispatched plain ++ [notification "show" t1; notification "show" t2].
Proof.
  exact (conj (reach_construct _ _)
           (show_twice_same_tree (Some true) plain (reach_construct _ _))).
Defined.

Lemma show_then_hide_restores_witness :
  Reachable plain ∧
  ∃ t1 t2, show (Some true) plain = Ok t1 ∧ hide t1 = Ok t2 ∧
    hidden (tree t2) ∧
    (∀ p, children (tree t2) p
          = children (remove Dialog (remove ModalSlot (tree plain))) p) ∧
    (hidden (tree plain) → ∀ p, children (tree t2) p = children (tree plain) p) ∧
    dispatched t2
      = dispatched plain ++ [notification "show" t1; notification "hide" t2].
Proof.
  exact (conj (reach_construct _ _)
           (show_then_hide_restores (Some true) plain (reach_construct _ _))).
Defined.

Lemma show_hide_notification_counts_witness :
  run [CallShow None; CallHide; CallShow None] plain
    = Ok (after [CallShow None; CallHide; CallShow None] plain) ∧
  countType "show" (dispatched (after [CallShow None; CallHide; CallShow None] plain))
    = countType "show" (dispatched plain)
      + length (filter (λ c, shows c) [CallShow None; CallHide; CallShow None]) ∧
  countType "hide" (dispatched (after [CallShow None; CallHide; CallShow None] plain))
    = countType "hide" (dispatched plain)
      + length (filter (λ c, hides (properties plain) c)
                  [CallShow None; CallHide; CallShow None]).
Proof.
  assert (run [CallShow None; CallHide; CallShow None] plain
            = Ok (after [CallShow None; CallHide; CallShow None] plain)) as H
    by (vm_compute; reflexivity).
  exact (conj H (show_hide_notification_counts _ plain _ H)).
Defined.

Lemma notifications_are_well_formed_witness :
  Reachable (after [CallShow None] modalDialog) ∧
  Forall (wellFormed (after [CallShow None] modalDialog))
    (dispatched (after [CallShow None] modalDialog)).
Proof.
  exact (conj shown_modalDialog_reachable
           (notifications_are_well_formed _ shown_modalDialog_reachable)).
Defined.

Lemma wait_is_silent_witness :
  Reachable (after [CallShow None] modalDialog) ∧
  tree (fst (wait (after [CallShow None] modalDialog)))
    = tree (after [CallShow None] modalDialog) ∧
  dispatched (fst (wait (after [CallShow None] modalDialog)))
    = dispatched (after [CallShow None] modalDialog) ∧
  properties (fst (wait (after [CallShow None] modalDialog)))
    = properties (after [CallShow None] modalDialog) ∧
  outcome (fst (wait (after [CallShow None] modalDialog)))
    (snd (wait (after [CallShow None] modalDialog))) = Pending ∧
  (∀ q, outcome (fst (wait (after [CallShow None] modalDialog))) q
        = outcome (after [CallShow None] modalDialog) q).
Proof.
  exact (conj shown_modalDialog_reachable
           (wait_is_silent _ shown_modalDialog_reachable)).
Defined.

Lemma visibility_and_confirmation_do_not_mix_witness :
  run [CallWait; CallSuccess] (after [CallShow None] modalDialog)
    = Ok (after [CallShow None; CallWait; CallSuccess] modalDialog) ∧
  forallb (λ c, negb (visibilityCall c)) [CallWait; CallSuccess] = true ∧
  tree (after [CallShow None; CallWait; CallSuccess] modalDialog)
    = tree (after [CallShow None] modalDialog) ∧
  (inRenderTree (tree (after [CallShow None; CallWait; CallSuccess] modalDialog)) Dialog ↔
   inRenderTree (tree (after [CallShow None] modalDialog)) Dialog).
Proof.
  assert (run [CallWait; CallSuccess] (after [CallShow None] modalDialog)
            = Ok (after [CallShow None; CallWait; CallSuccess] modalDialog)) as H
    by (vm_compute; reflexivity).
  pose proof (visibility_and_confirmation_do_not_mix _ _ _ H) as [_ Hc].
  destruct (Hc eq_refl) as (Ht & Hr & _).
  exact (conj H (conj eq_refl (conj Ht Hr))).
Defined.

Lemma settled_awaitable_keeps_its_value_witness :
  PendingWait (fst (wait plain)) (snd (wait plain)) ∧
  ∃ t1, step (if true then CallSuccess else CallFailure) (fst (wait plain)) = Ok t1 ∧
    ∀ cs t2, run cs t1 = Ok t2 → outcome t2 (snd (wait plain)) = Fulfilled true.
Proof.
  exact (conj (pending_wait plain)
           (settled_awaitable_keeps_its_value _ _ true (pending_wait plain))).
Defined.


Lemma settle_function_stays_stored_witness :
  run [CallSuccess; CallFailure; CallSuccess] (fst (wait plain))
    = Ok (after [CallWait; CallSuccess; CallFailure; CallSuccess] plain) ∧
  is_Some (confirmation (fst (wait plain))) ∧
  is_Some (confirmation (after [CallWait; CallSuccess; CallFailure; CallSuccess] plain)) ∧
  countType "success"
    (dispatched (after [CallWait; CallSuccess; CallFailure; CallSuccess] plain))
    = countType "success" (dispatched (fst (wait plain)))
      + length (filter (λ c, succeeds c) [CallSuccess; CallFailure; CallSuccess]) ∧
  countType "failure"
    (dispatched (after [CallWait; CallSuccess; CallFailure; CallSuccess] plain))
    = countType "failure" (dispatched (fst (wait plain)))
      + length (filter (λ c, fails c) [CallSuccess; CallFailure; CallSuccess]).
Proof.
  assert (run [CallSuccess; CallFailure; CallSuccess] (fst (wait plain))
            = Ok (after [CallWait; CallSuccess; CallFailure; CallSuccess] plain)) as H
    by (vm_compute; reflexivity).
  assert (is_Some (confirmation (fst (wait plain)))) as Hc by (by eexists).
  pose proof (settle_function_stays_stored _ _ _ H) as [Hs _].
  exact (conj H (conj Hc (Hs Hc))).
Defined.

End instances.

